(** * Quantization-aware-training rewriter (python/paddle/quantization/qat.py)

    A shallow embedding of the [QAT] class: the layer graph lives in a
    store of objects addressed by references, the two rewriting passes
    mutate that store, and the configuration object and [copy.deepcopy]
    are collaborators whose code is not part of the module. *)

From stdpp Require Import gmap strings list fin_maps.

#[local] Set Warnings "-clear-no-such-hyp".

(** ** Results of a call *)

(** A call either returns, raises a Python exception, or cannot be run by
    the model at all ([Stuck]: the recursion budget is exhausted, or a
    reference does not denote an object).  The store a raising call leaves
    behind is not part of the outcome: no statement below is about it. *)
Inductive res (E A : Type) : Type :=
  | Ret (a : A)
  | Raise (e : E)
  | Stuck.
Arguments Ret {E A} a.
Arguments Raise {E A} e.
Arguments Stuck {E A}.

Definition res_bind {E A B} (f : A → res E B) (m : res E A) : res E B :=
  match m with
  | Ret a => f a
  | Raise e => Raise e
  | Stuck => Stuck
  end.

(** A collaborator either raises ([inl]) or returns ([inr]). *)
Definition call {E A} (x : E + A) : res E A :=
  match x with
  | inl e => Raise e
  | inr a => Ret a
  end.

#[global] Instance res_mret {E} : MRet (res E) := λ A a, Ret a.
#[global] Instance res_mbind {E} : MBind (res E) := λ A B f m, res_bind f m.

(** ** Objects *)

Definition ref := positive.

(** An ordered dictionary keyed by strings: the keys are pairwise distinct
    and keep their insertion order. *)
Abbreviation odict := (list (string * ref)).

(** [d[k] = v]: an existing key keeps its position, a new key goes last. *)
Fixpoint odict_set (k : string) (v : ref) (d : odict) : odict :=
  match d with
  | [] => [(k, v)]
  | (k', v') :: d' =>
      if decide (k = k') then (k, v) :: d' else (k', v') :: odict_set k v d'
  end.

Fixpoint odict_get (d : odict) (k : string) : option ref :=
  match d with
  | [] => None
  | (k', v') :: d' => if decide (k = k') then Some v' else odict_get d' k
  end.

(** A layer object: its class ([type(layer)]) and its [_sub_layers]. *)
Record Layer (LType : Type) : Type := mkLayer {
  ltype : LType;
  _sub_layers : odict;
}.
Arguments mkLayer {LType} _ _.
Arguments ltype {LType} _.
Arguments _sub_layers {LType} _.

Abbreviation heap LType := (gmap ref (Layer LType)).

(** ** Collaborators *)

(** The methods of [QuantConfig] that the rewriter calls.  [Cfg] is the
    state of a configuration object and [E] the type of exceptions.  The
    queries read the store; the two constructors return a new store
    together with the object they built; [_specify] updates the
    configuration's own state. *)
Class QuantConfig (E LType Cfg : Type) : Type := {
  _specify : Cfg → heap LType → ref → E + Cfg;
  _is_quantifiable : Cfg → heap LType → ref → E + bool;
  qat_layer_mappings : Cfg → list LType;
  _get_qat_layer : Cfg → heap LType → ref → E + (heap LType * ref);
  _need_observe : Cfg → heap LType → ref → E + bool;
  _get_observe_wrapper : Cfg → heap LType → ref → E + (heap LType * ref);
}.

(** [copy.deepcopy], on a layer and on a configuration. *)
Class DeepCopy (E LType Cfg : Type) : Type := {
  deepcopy : heap LType → ref → E + (heap LType * ref);
  deepcopy_config : gmap ref Cfg → ref → E + (gmap ref Cfg * ref);
}.

(** The whole store: layer objects and configuration objects. *)
Record world (LType Cfg : Type) : Type := mkWorld {
  layers : heap LType;
  configs : gmap ref Cfg;
}.
Arguments mkWorld {LType Cfg} _ _.
Arguments layers {LType Cfg} _.
Arguments configs {LType Cfg} _.

(** A [QAT] instance: its only attribute is [_config]. *)
Record QAT : Type := mkQAT { _config : ref }.

(** What a pass does with one child. *)
Inductive action : Type := Skip | Recurse | Replace.

Section qat.
Context {E LType Cfg : Type} `{!EqDecision LType}.
Context `{!QuantConfig E LType Cfg} `{!DeepCopy E LType Cfg}.

Local Abbreviation heap := (gmap ref (Layer LType)).
Local Abbreviation res := (res E).

Definition layer_at (h : heap) (r : ref) : res (Layer LType) :=
  match h !! r with
  | Some L => Ret L
  | None => Stuck
  end.

(** Modelled from the spec: [Layer.named_children] of the host framework,
    which is not part of this module; it enumerates the entries of the
    node's mapping from child name to child node, in the mapping's order. *)
Definition named_children (h : heap) (model : ref) : res odict :=
  L ← layer_at h model; mret (_sub_layers L).

(** [type(child)] *)
Definition type (h : heap) (child : ref) : res LType :=
  L ← layer_at h child; mret (ltype L).

(** [model._sub_layers[key] = value] *)
Definition setitem_sub_layers (model : ref) (key : string) (value : ref)
    (h : heap) : res heap :=
  L ← layer_at h model;
  mret (<[model := mkLayer (ltype L) (odict_set key value (_sub_layers L))]> h).

(** [for key, value in replaced.items(): model._sub_layers[key] = value] *)
Fixpoint install (replaced : odict) (model : ref) (h : heap) : res heap :=
  match replaced with
  | [] => mret h
  | (key, value) :: replaced' =>
      h' ← setitem_sub_layers model key value h;
      install replaced' model h'
  end.

(** *** [_convert_to_quant_layers] *)

(** The [for name, child in model.named_children()] loop of the
    replacement pass; [self_call] is the recursive call, [replaced] the
    dictionary of staged replacements.  [named_children] is a generator
    over the node's mapping; the model reads its entries when the loop
    starts, which is the same on a tree, where nothing writes to that
    mapping while the loop runs (shown below). *)
Fixpoint convert_loop (self_call : ref → heap → res heap) (config : Cfg)
    (items : odict) (replaced : odict) (h : heap) : res (heap * odict) :=
  match items with
  | [] => mret (h, replaced)
  | (name, child) :: items' =>
      q ← call (_is_quantifiable config h child);
      if (q : bool) then
        ty ← type h child;
        if bool_decide (ty ∉ qat_layer_mappings config) then
          h' ← self_call child h;
          convert_loop self_call config items' replaced h'
        else
          '(h', v) ← call (_get_qat_layer config h child);
          convert_loop self_call config items' (odict_set name v replaced) h'
      else convert_loop self_call config items' replaced h
  end.

(** [fuel] bounds the depth of the recursion. *)
Fixpoint _convert_to_quant_layers (fuel : nat) (model : ref) (config : Cfg)
    (h : heap) : res heap :=
  match fuel with
  | 0 => Stuck
  | S fuel' =>
      items ← named_children h model;
      '(h1, replaced) ←
        convert_loop (λ child, _convert_to_quant_layers fuel' child config)
          config items [] h;
      install replaced model h1
  end.

(** *** [_insert_activation_observers] *)

Fixpoint observe_loop (self_call : ref → heap → res heap) (config : Cfg)
    (items : odict) (replaced : odict) (h : heap) : res (heap * odict) :=
  match items with
  | [] => mret (h, replaced)
  | (name, child) :: items' =>
      o ← call (_need_observe config h child);
      if (o : bool) then
        '(h', v) ← call (_get_observe_wrapper config h child);
        observe_loop self_call config items' (odict_set name v replaced) h'
      else
        h' ← self_call child h;
        observe_loop self_call config items' replaced h'
  end.

Fixpoint _insert_activation_observers (fuel : nat) (model : ref)
    (config : Cfg) (h : heap) : res heap :=
  match fuel with
  | 0 => Stuck
  | S fuel' =>
      items ← named_children h model;
      '(h1, replaced) ←
        observe_loop (λ child, _insert_activation_observers fuel' child config)
          config items [] h;
      install replaced model h1
  end.

(** *** [__init__] and [quantize] *)

(** [self._config = copy.deepcopy(config)] *)
Definition __init__ (config : ref) (w : world LType Cfg)
    : res (QAT * world LType Cfg) :=
  '(cs, c) ← call (deepcopy_config (configs w) config);
  mret (mkQAT c, mkWorld (layers w) cs).

Definition config_at (cs : gmap ref Cfg) (c : ref) : res Cfg :=
  match cs !! c with
  | Some cfg => Ret cfg
  | None => Stuck
  end.

(** [self._config] is read from the store, [_specify] updates it, and both
    passes are run with the state [_specify] left. *)
Definition quantize (fuel : nat) (self : QAT) (model : ref) (inplace : bool)
    (w : world LType Cfg) : res (ref * world LType Cfg) :=
  '(h0, _model) ←
    (if inplace then mret (layers w, model)
     else call (deepcopy (layers w) model));
  cfg ← config_at (configs w) (_config self);
  cfg' ← call (_specify cfg h0 _model);
  h1 ← _convert_to_quant_layers fuel _model cfg' h0;
  h2 ← _insert_activation_observers fuel _model cfg' h1;
  mret (_model, mkWorld h2 (<[_config self := cfg']> (configs w))).
End qat.

(** ** One traversal for both passes *)

(** Both passes have the same shape: every child is skipped, recursed into
    or replaced by a freshly built object, and the replacements are
    installed when the loop is over.  [traverse] abstracts the decision
    ([classify]) and the constructor ([make]); each pass is an instance of
    it (lemmas [convert_is_traverse] and [observe_is_traverse]). *)
Section traverse.
Context {E LType : Type}.
Local Abbreviation heap := (gmap ref (Layer LType)).

Variable classify : heap → ref → res E action.
Variable make : heap → ref → E + (heap * ref).

(** What one iteration of the loop does to the store and to the staged
    replacements. *)
Definition traverse_body (self_call : ref → heap → res E heap)
    (name : string) (child : ref) (replaced : odict) (h : heap)
    : res E (heap * odict) :=
  a ← classify h child;
  match a with
  | Skip => mret (h, replaced)
  | Recurse => h' ← self_call child h; mret (h', replaced)
  | Replace => '(h', v) ← call (make h child); mret (h', odict_set name v replaced)
  end.

Fixpoint traverse_loop (self_call : ref → heap → res E heap)
    (items : odict) (replaced : odict) (h : heap) : res E (heap * odict) :=
  match items with
  | [] => mret (h, replaced)
  | (name, child) :: items' =>
      '(h', replaced') ← traverse_body self_call name child replaced h;
      traverse_loop self_call items' replaced' h'
  end.

Fixpoint traverse (fuel : nat) (model : ref) (h : heap) : res E heap :=
  match fuel with
  | 0 => Stuck
  | S fuel' =>
      items ← named_children h model;
      '(h1, replaced) ← traverse_loop (traverse fuel') items [] h;
      install replaced model h1
  end.
End traverse.

Section actions.
Context {E LType Cfg : Type} `{!EqDecision LType}.
Context `{!QuantConfig E LType Cfg}.
Local Abbreviation heap := (gmap ref (Layer LType)).

(** The decision of the replacement pass for one child. *)
Definition convert_action (config : Cfg) (h : heap) (child : ref)
    : res E action :=
  q ← call (_is_quantifiable config h child);
  if (q : bool) then
    ty ← type h child;
    if bool_decide (ty ∉ qat_layer_mappings config) then mret Recurse
    else mret Replace
  else mret Skip.

(** The decision of the observer pass for one child. *)
Definition observe_action (config : Cfg) (h : heap) (child : ref)
    : res E action :=
  o ← call (_need_observe config h child);
  if (o : bool) then mret Replace else mret Recurse.
End actions.

(** ** Children and loop states *)

Section reaches.
Context {E LType Cfg : Type} `{!EqDecision LType}.
Context `{!QuantConfig E LType Cfg}.
Local Abbreviation heap := (gmap ref (Layer LType)).

(** In the store [h], the name [name] of [model] is bound to [child]. *)
Definition child_of (h : heap) (model : ref) (name : string) (child : ref)
    : Prop :=
  ∃ L, h !! model = Some L ∧ odict_get (_sub_layers L) name = Some child.

(** Run on [model] from the store [h], with [fuel] left for the recursive
    calls, the loop of the replacement pass comes to the child [child],
    bound to [name], with the store [hi] and the staged replacements
    [ri]. *)
Definition convert_reaches (fuel : nat) (model : ref) (config : Cfg)
    (h : heap) (name : string) (child : ref) (hi : heap) (ri : odict)
    : Prop :=
  ∃ L pre post,
    h !! model = Some L ∧ _sub_layers L = pre ++ (name, child) :: post ∧
    convert_loop (λ c, _convert_to_quant_layers fuel c config) config pre [] h
      = Ret (hi, ri).

(** The same for the loop of the observer pass. *)
Definition observe_reaches (fuel : nat) (model : ref) (config : Cfg)
    (h : heap) (name : string) (child : ref) (hi : heap) (ri : odict)
    : Prop :=
  ∃ L pre post,
    h !! model = Some L ∧ _sub_layers L = pre ++ (name, child) :: post ∧
    observe_loop (λ c, _insert_activation_observers fuel c config) config pre [] h
      = Ret (hi, ri).
End reaches.

(** ** Well-formed stores *)

Section shape.
Context {LType : Type}.
Local Abbreviation heap := (gmap ref (Layer LType)).

(** [forest T cs D]: the objects [cs] are roots of pairwise disjoint
    [T]-trees that together occupy the references [D]. *)
Inductive forest (T : ref → gset ref → Prop) : list ref → gset ref → Prop :=
  | forest_nil : forest T [] ∅
  | forest_cons c cs D1 D2 :
      T c D1 → forest T cs D2 → D1 ## D2 → forest T (c :: cs) (D1 ∪ D2).

(** [tree h n r D]: in the store [h], the object [r] is the root of a
    tree of height less than [n] whose nodes are exactly [D]: every node
    denotes an object, the names of its children are pairwise distinct,
    and no object is reached along two paths. *)
Fixpoint tree (h : heap) (n : nat) (r : ref) (D : gset ref) : Prop :=
  match n with
  | 0 => False
  | S n' =>
      ∃ L D', h !! r = Some L ∧ NoDup (_sub_layers L).*1 ∧
              forest (tree h n') (_sub_layers L).*2 D' ∧
              (r ∉ D') ∧ D = {[r]} ∪ D'
  end.

(** An executable check of [forest] and [tree]: the nodes of the tree,
    when there is one. *)
Fixpoint check_forest (check : ref → option (gset ref)) (cs : list ref)
    : option (gset ref) :=
  match cs with
  | [] => Some ∅
  | c :: cs' =>
      D1 ← check c;
      D2 ← check_forest check cs';
      if decide (D1 ## D2) then Some (D1 ∪ D2) else None
  end.

Fixpoint check_tree (h : heap) (n : nat) (r : ref) : option (gset ref) :=
  match n with
  | 0 => None
  | S n' =>
      L ← h !! r;
      if decide (NoDup (_sub_layers L).*1) then
        D' ← check_forest (check_tree h n') (_sub_layers L).*2;
        if decide (r ∈ D') then None else Some ({[r]} ∪ D')
      else None
  end.

(** [reach h r x]: [x] is [r] or one of its descendants. *)
Inductive reach (h : heap) : ref → ref → Prop :=
  | reach_refl r : reach h r r
  | reach_child r L name c x :
      h !! r = Some L → (name, c) ∈ _sub_layers L → reach h c x →
      reach h r x.

(** [evolves D h h']: every object of [h] is still there in [h'], with
    its class and the names of its children; objects outside [D] are
    unchanged.  New objects may have been allocated. *)
Definition evolves (D : gset ref) (h h' : heap) : Prop :=
  ∀ x L, h !! x = Some L →
    ∃ L', h' !! x = Some L' ∧ ltype L' = ltype L ∧
          (_sub_layers L').*1 = (_sub_layers L).*1 ∧ (x ∉ D → L' = L).

(** Every object of [h] is in [h'] with the same names of children. *)
Definition names_kept (h h' : heap) : Prop :=
  ∀ x L, h !! x = Some L →
    ∃ L', h' !! x = Some L' ∧ (_sub_layers L').*1 = (_sub_layers L).*1.

(** The contract of a constructor: called on a tree, it leaves every
    object of the store as it is, and the object it returns is the root
    of a tree made of new objects and, possibly, of the tree it was
    given. *)
Definition allocates_tree {E} (make : heap → ref → E + (heap * ref)) : Prop :=
  ∀ h r n D h' r', tree h n r D → make h r = inr (h', r') →
    h ⊆ h' ∧ ∃ n' D', tree h' n' r' D' ∧ (D' ⊆ D ∪ (dom h' ∖ dom h)).

(** The contract of [copy.deepcopy] on a layer: the copy is a tree of new
    objects, and the objects of the store are left as they are. *)
Definition copies_tree {E} (copy : heap → ref → E + (heap * ref)) : Prop :=
  ∀ h r n D h' r', tree h n r D → copy h r = inr (h', r') →
    h ⊆ h' ∧ ∃ n' D', tree h' n' r' D' ∧ D' ## dom h.

(** The contract of [copy.deepcopy] on a configuration: one new object
    that holds the state of the original. *)
Definition copies_config {E Cfg}
    (copy : gmap ref Cfg → ref → E + (gmap ref Cfg * ref)) : Prop :=
  ∀ cs c cs' c', copy cs c = inr (cs', c') →
    ∃ v, cs !! c = Some v ∧ (c' ∉ dom cs) ∧ cs' = <[c' := v]> cs.
End shape.

Section contracts.
Context {E LType Cfg : Type}.
Context `{!QuantConfig E LType Cfg} `{!DeepCopy E LType Cfg}.

(** The exception [e] is raised by some call to a collaborator. *)
Definition raised_by_collaborator (e : E) : Prop :=
  (∃ h r, deepcopy (Cfg:=Cfg) h r = inl e) ∨
  (∃ c h r, _specify c h r = inl e) ∨
  (∃ c h r, _is_quantifiable c h r = inl e) ∨
  (∃ c h r, _get_qat_layer c h r = inl e) ∨
  (∃ c h r, _need_observe c h r = inl e) ∨
  (∃ c h r, _get_observe_wrapper c h r = inl e).

(** What the rewriter relies on: both constructors of the configuration
    and [copy.deepcopy] keep to their contracts. *)
Definition collaborators_ok : Prop :=
  (∀ c : Cfg, allocates_tree (_get_qat_layer c)) ∧
  (∀ c : Cfg, allocates_tree (_get_observe_wrapper c)) ∧
  copies_tree (deepcopy (Cfg:=Cfg)) ∧
  copies_config (deepcopy_config (LType:=LType)).
End contracts.

(** The dictionary [d] after [for key, value in replaced.items(): d[key] = value]. *)
Definition odict_update (replaced d : odict) : odict :=
  foldl (λ d kv, odict_set kv.1 kv.2 d) d replaced.

(** The child bound to [kc.1] once the staged replacements are installed. *)
Definition final_child (replaced : odict) (kc : string * ref) : ref :=
  default kc.2 (odict_get replaced kc.1).

Section postconditions.
Context {E LType : Type}.
Local Abbreviation heap := (gmap ref (Layer LType)).

Variable classify : heap → ref → res E action.
Variable make : heap → ref → E + (heap * ref).

(** The exception [e] comes out of the decision or of the constructor. *)
Definition raised (e : E) : Prop :=
  (∃ h r, classify h r = Raise e) ∨ (∃ h r, make h r = inl e).

(** What a pass guarantees when it is run on the tree [D] rooted at [r]:
    it does not get stuck; an exception is one of a collaborator; on
    return only objects of [D] have changed and [r] is again the root of
    a tree, made of objects of [D] and of new objects. *)
Definition pass_post (D : gset ref) (h : heap) (r : ref)
    (out : res E heap) : Prop :=
  match out with
  | Stuck => False
  | Raise e => raised e
  | Ret h' =>
      evolves D h h' ∧
      ∃ n' D', tree h' n' r D' ∧ (D' ⊆ D ∪ (dom h' ∖ dom h))
  end.

(** The same for the loop over the children [items], which form a forest
    on [D]: [final_child replaced'] gives the children after the staged
    replacements are installed. *)
Definition loop_post (D : gset ref) (h : heap) (items replaced : odict)
    (out : res E (heap * odict)) : Prop :=
  match out with
  | Stuck => False
  | Raise e => raised e
  | Ret (h', replaced') =>
      evolves D h h' ∧ NoDup replaced'.*1 ∧
      (∀ k, k ∉ items.*1 → odict_get replaced' k = odict_get replaced k) ∧
      ∃ n' D', forest (tree h' n') (final_child replaced' <$> items) D' ∧
               (D' ⊆ D ∪ (dom h' ∖ dom h))
  end.
End postconditions.

(** ** The calls a pass makes *)

Section calls.
Context {E LType : Type}.
Local Abbreviation heap := (gmap ref (Layer LType)).

Variable classify : heap → ref → res E action.
Variable make : heap → ref → E + (heap * ref).

(** [calls fuel model h f p hp]: the call [traverse fuel model h] is, or
    leads through recursive calls to, the call [traverse f p hp]. *)
Inductive calls : nat → ref → heap → nat → ref → heap → Prop :=
  | calls_here fuel model h : calls fuel model h fuel model h
  | calls_below fuel model h L pre name child post hi ri f p hp :
      h !! model = Some L →
      _sub_layers L = pre ++ (name, child) :: post →
      traverse_loop classify make (traverse classify make fuel) pre [] h
        = Ret (hi, ri) →
      classify hi child = Ret Recurse →
      calls fuel child hi f p hp →
      calls (S fuel) model h f p hp.
End calls.

Section visits.
Context {E LType Cfg : Type} `{!EqDecision LType}.
Context `{!QuantConfig E LType Cfg} `{!DeepCopy E LType Cfg}.
Local Abbreviation heap := (gmap ref (Layer LType)).

(** [convert_visits config fuel model h f p hp]: the call
    [_convert_to_quant_layers(model, config)] made in the store [h] with
    the budget [fuel] is, or leads through the recursive calls of line 77
    to, the call [_convert_to_quant_layers(p, config)] made in the store
    [hp] with the budget [f]. *)
Inductive convert_visits (config : Cfg)
    : nat → ref → heap → nat → ref → heap → Prop :=
  | convert_visits_here fuel model h :
      convert_visits config fuel model h fuel model h
  | convert_visits_below fuel model h name child hi ri Lc f p hp :
      convert_reaches fuel model config h name child hi ri →
      _is_quantifiable config hi child = inr true →
      hi !! child = Some Lc →
      ltype Lc ∉ qat_layer_mappings config →
      convert_visits config fuel child hi f p hp →
      convert_visits config (S fuel) model h f p hp.

(** The same for [_insert_activation_observers] and the recursive calls of
    line 89. *)
Inductive observe_visits (config : Cfg)
    : nat → ref → heap → nat → ref → heap → Prop :=
  | observe_visits_here fuel model h :
      observe_visits config fuel model h fuel model h
  | observe_visits_below fuel model h name child hi ri f p hp :
      observe_reaches fuel model config h name child hi ri →
      _need_observe config hi child = inr false →
      observe_visits config fuel child hi f p hp →
      observe_visits config (S fuel) model h f p hp.

(** In the run of the replacement pass on [model], some call of the pass
    comes to a child for which [_is_quantifiable] or [_get_qat_layer]
    raises [e]. *)
Definition convert_raises_at (config : Cfg) (fuel : nat) (model : ref)
    (h : heap) (e : E) : Prop :=
  ∃ f p hp name child hi ri,
    convert_visits config fuel model h (S f) p hp ∧
    convert_reaches f p config hp name child hi ri ∧
    (_is_quantifiable config hi child = inl e ∨
     ∃ Lc, _is_quantifiable config hi child = inr true ∧
           hi !! child = Some Lc ∧
           ltype Lc ∈ qat_layer_mappings config ∧
           _get_qat_layer config hi child = inl e).

(** In the run of the observer pass on [model], some call of the pass
    comes to a child for which [_need_observe] or [_get_observe_wrapper]
    raises [e]. *)
Definition observe_raises_at (config : Cfg) (fuel : nat) (model : ref)
    (h : heap) (e : E) : Prop :=
  ∃ f p hp name child hi ri,
    observe_visits config fuel model h (S f) p hp ∧
    observe_reaches f p config hp name child hi ri ∧
    (_need_observe config hi child = inl e ∨
     (_need_observe config hi child = inr true ∧
      _get_observe_wrapper config hi child = inl e)).

(** Some call to a collaborator made by [quantize] raises [e]: the deep
    copy, [_specify], or a query or constructor called by one of the two
    passes, the observer pass being run once the replacement pass has
    returned. *)
Definition collaborator_raises (fuel : nat) (self : QAT) (model : ref)
    (inplace : bool) (w : world LType Cfg) (e : E) : Prop :=
  (inplace = false ∧ deepcopy (layers w) model = inl e) ∨
  ∃ h0 m' cfg,
    (if inplace then h0 = layers w ∧ m' = model
     else deepcopy (layers w) model = inr (h0, m')) ∧
    configs w !! _config self = Some cfg ∧
    (_specify cfg h0 m' = inl e ∨
     ∃ cfg', _specify cfg h0 m' = inr cfg' ∧
       (convert_raises_at cfg' fuel m' h0 e ∨
        ∃ h1, _convert_to_quant_layers fuel m' cfg' h0 = Ret h1 ∧
              observe_raises_at cfg' fuel m' h1 e)).
End visits.

(** ** A concrete configuration and a concrete model *)

(** A small instance of the collaborators, on which the statements below
    are exercised: eligibility, the mapping set and the observed classes
    are given by layer class. *)
Module Demo.
Inductive Kind : Type :=
  | Net | Conv2D | BatchNorm | Sequential | QuantedConv2D | ObserveWrapper.

#[global] Instance Kind_eq_dec : EqDecision Kind.
Proof. solve_decision. Defined.

Inductive Exn : Type := KeyError.

Record Cfg : Type := mkCfg {
  quantifiable : list Kind;
  mapped : list Kind;
  observed : list Kind;
  bound_to : option ref;
}.

Definition kind_in (h : heap Kind) (r : ref) (ks : list Kind) : Exn + bool :=
  match h !! r with
  | Some L => inr (bool_decide (ltype L ∈ ks))
  | None => inl KeyError
  end.

Definition is_leaf (h : heap Kind) (r : ref) : bool :=
  match h !! r with
  | Some L => bool_decide (_sub_layers L = [])
  | None => false
  end.

(** A new leaf of class [QuantedConv2D]. *)
Definition get_qat_layer (c : Cfg) (h : heap Kind) (r : ref)
    : Exn + (heap Kind * ref) :=
  match h !! r with
  | Some L =>
      if bool_decide (ltype L ∈ mapped c) then
        let r' := fresh (dom h) in
        inr (<[r' := mkLayer QuantedConv2D []]> h, r')
      else inl KeyError
  | None => inl KeyError
  end.

(** A new [ObserveWrapper] whose only child is the observed layer. *)
Definition get_observe_wrapper (c : Cfg) (h : heap Kind) (r : ref)
    : Exn + (heap Kind * ref) :=
  let r' := fresh (dom h) in
  inr (<[r' := mkLayer ObserveWrapper [("_observed"%string, r)]]> h, r').

#[global] Instance config : QuantConfig Exn Kind Cfg := {|
  _specify c h r :=
    inr (mkCfg (quantifiable c) (mapped c) (observed c) (Some r));
  _is_quantifiable c h r := kind_in h r (quantifiable c);
  qat_layer_mappings c := mapped c;
  _get_qat_layer := get_qat_layer;
  _need_observe c h r :=
    match kind_in h r (observed c) with
    | inr b => inr (is_leaf h r && b)
    | inl e => inl e
    end;
  _get_observe_wrapper := get_observe_wrapper;
|}.

(** A reference above every object of the store. *)
Definition above {A} (m : gmap ref A) : positive :=
  Pos.of_succ_nat (max_list (Pos.to_nat <$> elements (dom m))).

Definition shift_layer (N : positive) (L : Layer Kind) : Layer Kind :=
  mkLayer (ltype L) (prod_map id (Pos.add N) <$> _sub_layers L).

(** A deep copy that duplicates every object of the store, the object
    [r] going to [N + r]. *)
Definition copy_layers (h : heap Kind) (r : ref) : Exn + (heap Kind * ref) :=
  match h !! r with
  | Some _ =>
      let N := above h in
      inr (h ∪ kmap (Pos.add N) (shift_layer N <$> h), (N + r)%positive)
  | None => inl KeyError
  end.

Definition copy_config (cs : gmap ref Cfg) (c : ref)
    : Exn + (gmap ref Cfg * ref) :=
  match cs !! c with
  | Some v => let c' := fresh (dom cs) in inr (<[c' := v]> cs, c')
  | None => inl KeyError
  end.

#[global] Instance copy : DeepCopy Exn Kind Cfg := {|
  deepcopy := copy_layers;
  deepcopy_config := copy_config;
|}.

(** The model
    [{convA: Conv2D, normB: BatchNorm{child: Conv2D}, features: Sequential{conv: Conv2D}}]. *)
Definition model_heap : heap Kind :=
  list_to_map
    [(1%positive, mkLayer Net [("convA"%string, 2%positive);
                               ("normB"%string, 3%positive);
                               ("features"%string, 5%positive)]);
     (2%positive, mkLayer Conv2D []);
     (3%positive, mkLayer BatchNorm [("child"%string, 4%positive)]);
     (4%positive, mkLayer Conv2D []);
     (5%positive, mkLayer Sequential [("conv"%string, 6%positive)]);
     (6%positive, mkLayer Conv2D [])].

(** The same model after the replacement pass under [qconfig]. *)
Definition converted_heap : heap Kind :=
  list_to_map
    [(1%positive, mkLayer Net [("convA"%string, 7%positive);
                               ("normB"%string, 3%positive);
                               ("features"%string, 5%positive)]);
     (2%positive, mkLayer Conv2D []);
     (3%positive, mkLayer BatchNorm [("child"%string, 4%positive)]);
     (4%positive, mkLayer Conv2D []);
     (5%positive, mkLayer Sequential [("conv"%string, 8%positive)]);
     (6%positive, mkLayer Conv2D []);
     (7%positive, mkLayer QuantedConv2D []);
     (8%positive, mkLayer QuantedConv2D [])].

(** Convolutions and containers are eligible, batch normalisation is
    not; convolutions have a quantized counterpart, which is observed. *)
Definition qconfig : Cfg :=
  mkCfg [Net; Sequential; Conv2D] [Conv2D] [QuantedConv2D] None.

(** Nothing is eligible, and convolutions are observed all the same. *)
Definition observing_config : Cfg := mkCfg [] [] [Conv2D] None.


(** The rewriter whose configuration is the object [1]. *)
Definition qat : QAT := mkQAT 1%positive.

(** The caller's store: the model and one configuration object. *)
Definition world0 (c : Cfg) : world Kind Cfg :=
  mkWorld model_heap {[ 1%positive := c ]}.
End Demo.

(** ** The textual representation *)


Section representation.
Context {E LType Cfg : Type} `{!ConfigDetails E Cfg}.



End representation.


(** Containers of class [Sequential] are eligible and quantized
    convolutions are observed: true of some objects, of none under
    [normB]. *)
Definition sequential_config : Demo.Cfg :=
  Demo.mkCfg [Demo.Sequential] [Demo.Conv2D] [Demo.QuantedConv2D] None.

(** A configuration like [Demo.config] whose mapping has no constructor
    registered: [_get_qat_layer] raises. *)
Definition unregistered_config : QuantConfig Demo.Exn Demo.Kind Demo.Cfg := {|
  _specify := _specify (QuantConfig:=Demo.config);
  _is_quantifiable := _is_quantifiable (QuantConfig:=Demo.config);
  qat_layer_mappings := qat_layer_mappings (QuantConfig:=Demo.config);
  _get_qat_layer _ _ _ := inl Demo.KeyError;
  _need_observe := _need_observe (QuantConfig:=Demo.config);
  _get_observe_wrapper := _get_observe_wrapper (QuantConfig:=Demo.config);
|}.

(* ================================================================== *)
(** * Proofs *)

(** ** The result monad *)

Lemma res_bind_Ret {E A B} (f : A → res E B) (m : res E A) b :
  m ≫= f = Ret b → ∃ a, m = Ret a ∧ f a = Ret b.
Proof. destruct m; simpl; [eauto | discriminate..]. Qed.

Lemma call_Ret {E A} (x : E + A) a : call x = Ret a → x = inr a.
Proof. destruct x; simpl; congruence. Qed.

Lemma call_Raise {E A} (x : E + A) e : call x = Raise e → x = inl e.
Proof. destruct x; simpl; congruence. Qed.

Lemma call_not_Stuck {E A} (x : E + A) : call x ≠ Stuck.
Proof. by destruct x. Qed.

(** ** Ordered dictionaries *)

Lemma odict_get_None (d : odict) k : odict_get d k = None ↔ k ∉ d.*1.
Proof.
  induction d as [|[k' v'] d IH]; simpl.
  - split; [intros _; apply not_elem_of_nil | done].
  - rewrite not_elem_of_cons. case_decide; subst.
    + split; [done | intros [? _]; done].
    + rewrite IH. tauto.
Qed.

Lemma odict_get_Some_elem (d : odict) k v : odict_get d k = Some v → (k, v) ∈ d.
Proof.
  induction d as [|[k' v'] d IH]; simpl; [done|].
  case_decide; subst.
  - intros [= ->]. left.
  - intros ?. right. auto.
Qed.

Lemma odict_get_elem (d : odict) k v :
  NoDup d.*1 → (k, v) ∈ d → odict_get d k = Some v.
Proof.
  induction d as [|[k' v'] d IH]; simpl.
  - intros _ H. by apply elem_of_nil in H.
  - rewrite NoDup_cons. intros [Hk Hd] [Heq|Hin]%elem_of_cons.
    + injection Heq as -> ->. by rewrite decide_True.
    + rewrite decide_False; [auto|].
      intros ->. apply Hk. apply list_elem_of_fmap. by exists (k', v).
Qed.

Lemma odict_get_set k v (d : odict) k' :
  odict_get (odict_set k v d) k' = if decide (k' = k) then Some v else odict_get d k'.
Proof.
  induction d as [|[k0 v0] d IH]; simpl.
  - repeat case_decide; congruence.
  - repeat (case_decide; simpl; subst); try congruence.
Qed.

Lemma odict_set_keys_elem k v (d : odict) :
  k ∈ d.*1 → (odict_set k v d).*1 = d.*1.
Proof.
  induction d as [|[k0 v0] d IH]; simpl.
  - intros H. by apply elem_of_nil in H.
  - intros Hin. case_decide; subst; simpl; [done|].
    f_equal. apply IH. apply elem_of_cons in Hin as [?|?]; [congruence | done].
Qed.

Lemma odict_set_keys_new k v (d : odict) :
  k ∉ d.*1 → (odict_set k v d).*1 = d.*1 ++ [k].
Proof.
  induction d as [|[k0 v0] d IH]; simpl; [done|].
  rewrite not_elem_of_cons. intros [Hne Hd].
  rewrite decide_False by done. simpl. f_equal. auto.
Qed.

Lemma odict_set_NoDup k v (d : odict) : NoDup d.*1 → NoDup (odict_set k v d).*1.
Proof.
  intros Hd. destruct (decide (k ∈ d.*1)).
  - by rewrite odict_set_keys_elem.
  - rewrite odict_set_keys_new by done.
    apply NoDup_app. split_and!; [done | | apply NoDup_singleton].
    intros x Hx ->%list_elem_of_singleton. done.
Qed.

(** Setting a key that is present rewrites the entry at its position. *)
Lemma odict_set_map k v (d : odict) :
  NoDup d.*1 → k ∈ d.*1 →
  odict_set k v d = (λ kc, (kc.1, if decide (kc.1 = k) then v else kc.2)) <$> d.
Proof.
  induction d as [|[k0 v0] d IH]; simpl.
  - intros _ H. by apply elem_of_nil in H.
  - rewrite NoDup_cons. intros [Hk Hd] Hin.
    case_decide; subst.
    + rewrite decide_True by done. f_equal.
      clear IH Hin. induction d as [|[k1 v1] d IH]; simpl; [done|].
      simpl in *. apply not_elem_of_cons in Hk as [? ?].
      apply NoDup_cons in Hd as [? ?].
      rewrite decide_False by done. f_equal. auto.
    + rewrite decide_False by done. f_equal. apply IH; [done|].
      apply elem_of_cons in Hin as [?|?]; [congruence | done].
Qed.

Lemma odict_update_map (replaced d : odict) :
  NoDup d.*1 → NoDup replaced.*1 → (∀ k, k ∈ replaced.*1 → k ∈ d.*1) →
  odict_update replaced d = (λ kc, (kc.1, final_child replaced kc)) <$> d.
Proof.
  revert d. induction replaced as [|[k v] rest IH]; intros d Hd Hr Hsub.
  - simpl. unfold final_child. simpl. clear.
    induction d as [|[k0 v0] d IHd]; simpl; [done|]. by f_equal.
  - rewrite fmap_cons in Hr, Hsub. simpl in Hr, Hsub.
    apply NoDup_cons in Hr as [Hk Hrest].
    assert (k ∈ d.*1) as Hkd by (apply Hsub; left).
    change (odict_update ((k, v) :: rest) d)
      with (odict_update rest (odict_set k v d)).
    rewrite IH.
    + rewrite odict_set_map by done. rewrite <-list_fmap_compose.
      apply list_fmap_ext. intros i [k0 v0] _. simpl. f_equal.
      unfold final_child. simpl. case_decide; subst; simpl; [|done].
      apply odict_get_None in Hk. by rewrite Hk.
    + by rewrite odict_set_keys_elem.
    + done.
    + intros k0 Hk0. rewrite odict_set_keys_elem by done.
      apply Hsub. by right.
Qed.

Lemma odict_update_keys (replaced d : odict) :
  NoDup d.*1 → NoDup replaced.*1 → (∀ k, k ∈ replaced.*1 → k ∈ d.*1) →
  (odict_update replaced d).*1 = d.*1.
Proof.
  intros. rewrite odict_update_map by done.
  rewrite <-list_fmap_compose. by apply list_fmap_ext.
Qed.

(** ** Forests, trees and reachability *)

Section shape_lemmas.
Context {LType : Type}.
Local Abbreviation heap := (gmap ref (Layer LType)).
Implicit Types (h : heap) (D : gset ref) (r c x : ref).

Lemma forest_impl T T' cs D :
  forest T cs D →
  (∀ c Dc, c ∈ cs → Dc ⊆ D → T c Dc → T' c Dc) →
  forest T' cs D.
Proof.
  induction 1 as [|c cs D1 D2 Hc Hcs IH Hdisj]; intros Himpl.
  - constructor.
  - constructor; [| |done].
    + apply Himpl; [left | set_solver | done].
    + apply IH. intros c' Dc Hin Hsub. apply Himpl; [by right | set_solver].
Qed.

Lemma forest_subseteq T cs D (X : gset ref) :
  forest T cs D → (∀ c Dc, c ∈ cs → T c Dc → Dc ⊆ X) → D ⊆ X.
Proof.
  induction 1 as [|c cs D1 D2 Hc Hcs IH Hdisj]; intros HX; [set_solver|].
  apply union_subseteq. split.
  - eapply HX; [left | done].
  - apply IH. intros c' Dc Hin. apply HX. by right.
Qed.

Lemma forest_elem T cs D c :
  forest T cs D → c ∈ cs → ∃ Dc, T c Dc ∧ Dc ⊆ D.
Proof.
  induction 1 as [|c0 cs D1 D2 Hc Hcs IH Hdisj]; intros Hin.
  - by apply elem_of_nil in Hin.
  - apply elem_of_cons in Hin as [->|Hin].
    + exists D1. split; [done | set_solver].
    + destruct (IH Hin) as (Dc & ? & ?). exists Dc. split; [done | set_solver].
Qed.

Lemma forest_app_inv T cs1 cs2 D :
  forest T (cs1 ++ cs2) D →
  ∃ D1 D2, forest T cs1 D1 ∧ forest T cs2 D2 ∧ D1 ## D2 ∧ D = D1 ∪ D2.
Proof.
  revert D. induction cs1 as [|c cs1 IH]; simpl; intros D HF.
  - exists ∅, D. split_and!; [constructor | done | set_solver | set_solver].
  - inversion HF as [|? ? Dc Drest Hc Hrest Hdisj]; subst.
    destruct (IH _ Hrest) as (D1 & D2 & H1 & H2 & Hd & ->).
    exists (Dc ∪ D1), D2. split_and!; [|done|set_solver|set_solver].
    constructor; [done | done | set_solver].
Qed.

Lemma check_forest_sound (check : ref → option (gset ref)) T cs D :
  (∀ c Dc, check c = Some Dc → T c Dc) →
  check_forest check cs = Some D → forest T cs D.
Proof.
  intros Hcheck. revert D. induction cs as [|c cs IH]; intros D; simpl.
  - intros [= <-]. constructor.
  - destruct (check c) as [D1|] eqn:H1; simpl; [|done].
    destruct (check_forest check cs) as [D2|]; simpl; [|done].
    case_decide; [|done]. intros [= <-]. constructor; auto.
Qed.

Lemma check_tree_sound h n r D : check_tree h n r = Some D → tree h n r D.
Proof.
  revert r D. induction n as [|n IH]; intros r D; simpl; [done|].
  destruct (h !! r) as [L|]; simpl; [|done].
  case_decide; [|done].
  destruct (check_forest (check_tree h n) (_sub_layers L).*2) as [D'|] eqn:HF;
    simpl; [|done].
  case_decide; [done|]. intros [= <-].
  exists L, D'. split_and!; try done.
  eapply check_forest_sound; [apply IH | done].
Qed.

Lemma tree_root h n r D : tree h n r D → r ∈ D ∧ is_Some (h !! r).
Proof.
  destruct n; simpl; [done|]. intros (L & D' & HL & _ & _ & _ & ->).
  split; [set_solver | eauto].
Qed.

Lemma tree_mono h n m r D : tree h n r D → n ≤ m → tree h m r D.
Proof.
  revert m r D. induction n as [|n IH]; intros m r D; simpl; [done|].
  intros (L & D' & HL & Hnd & HF & Hr & ->) Hle.
  destruct m as [|m]; [lia|]. simpl.
  exists L, D'. split_and!; try done.
  eapply forest_impl; [done|]. intros c Dc _ _ Hc. apply IH; [done | lia].
Qed.

Lemma tree_dom h n r D : tree h n r D → D ⊆ dom h.
Proof.
  revert r D. induction n as [|n IH]; intros r D; simpl; [done|].
  intros (L & D' & HL & Hnd & HF & Hr & ->).
  apply union_subseteq. split.
  - apply singleton_subseteq_l, elem_of_dom. eauto.
  - eapply forest_subseteq; [done|]. intros c Dc _. apply IH.
Qed.

(** A tree only depends on the objects it is made of. *)
Lemma tree_agree h h' n r D :
  tree h n r D → (∀ x, x ∈ D → h' !! x = h !! x) → tree h' n r D.
Proof.
  revert r D. induction n as [|n IH]; intros r D; simpl; [done|].
  intros (L & D' & HL & Hnd & HF & Hr & ->) Hag.
  exists L, D'. split_and!; try done.
  - rewrite Hag; [done | set_solver].
  - eapply forest_impl; [done|]. intros c Dc _ Hsub Hc.
    apply IH; [done|]. intros x Hx. apply Hag. set_solver.
Qed.

Lemma reach_in_tree h n r D x : tree h n r D → reach h r x → x ∈ D.
Proof.
  intros HT HR. revert n D HT.
  induction HR as [r|r L name c x HL Hin HR IH]; intros n D HT.
  - by apply tree_root in HT as [? _].
  - destruct n as [|n]; simpl in HT; [done|].
    destruct HT as (L' & D' & HL' & Hnd & HF & Hr & ->).
    assert (L' = L) as -> by congruence.
    assert (c ∈ (_sub_layers L).*2) as Hc.
    { apply list_elem_of_fmap. by exists (name, c). }
    destruct (forest_elem _ _ _ _ HF Hc) as (Dc & HTc & Hsub).
    specialize (IH _ _ HTc). set_solver.
Qed.

Lemma forest_elem_of T cs D x :
  forest T cs D → x ∈ D → ∃ c Dc, c ∈ cs ∧ T c Dc ∧ x ∈ Dc.
Proof.
  induction 1 as [|c0 cs D1 D2 Hc Hcs IH Hdisj]; intros Hx; [set_solver|].
  apply elem_of_union in Hx as [Hx|Hx].
  - exists c0, D1. split_and!; [left | done | done].
  - destruct (IH Hx) as (c & Dc & ? & ? & ?). exists c, Dc.
    split_and!; [by right | done | done].
Qed.

Lemma tree_reach h n r D x : tree h n r D → x ∈ D → reach h r x.
Proof.
  revert r D. induction n as [|n IH]; intros r D; simpl; [done|].
  intros (L & D' & HL & _ & HF & _ & ->) Hx.
  apply elem_of_union in Hx as [->%elem_of_singleton|Hx]; [constructor|].
  destruct (forest_elem_of _ _ _ _ HF Hx) as (c & Dc & Hc & HTc & Hxc).
  apply list_elem_of_fmap in Hc as ([name c'] & -> & Hin).
  eapply reach_child; [done | done |]. by eapply IH.
Qed.

(** *** Evolution of the store *)

Lemma evolves_refl D h : evolves D h h.
Proof. intros x L HL. exists L. done. Qed.

Lemma evolves_dom D h h' : evolves D h h' → dom h ⊆ dom h'.
Proof.
  intros Hev x [L HL]%elem_of_dom.
  destruct (Hev _ _ HL) as (L' & HL' & _). apply elem_of_dom. eauto.
Qed.

Lemma evolves_agree D h h' x :
  evolves D h h' → x ∈ dom h → x ∉ D → h' !! x = h !! x.
Proof.
  intros Hev [L HL]%elem_of_dom Hx.
  destruct (Hev _ _ HL) as (L' & HL' & _ & _ & Heq).
  rewrite HL, HL'. f_equal. auto.
Qed.

Lemma evolves_alloc h h' : h ⊆ h' → evolves ∅ h h'.
Proof.
  intros Hsub x L HL. exists L. split_and!; try done.
  eapply lookup_weaken; done.
Qed.

Lemma evolves_trans D1 D2 D h h1 h2 :
  evolves D1 h h1 → evolves D2 h1 h2 →
  D1 ⊆ D → (∀ x, x ∈ D2 → x ∈ dom h → x ∈ D) →
  evolves D h h2.
Proof.
  intros H1 H2 Hsub1 Hsub2 x L HL.
  destruct (H1 _ _ HL) as (L1 & HL1 & Hty1 & Hk1 & Heq1).
  destruct (H2 _ _ HL1) as (L2 & HL2 & Hty2 & Hk2 & Heq2).
  exists L2. split_and!; [done | congruence | congruence |].
  intros Hx. rewrite Heq2, Heq1; [done | set_solver |].
  intros Hx2. apply Hx, Hsub2; [done|]. apply elem_of_dom. eauto.
Qed.

Lemma tree_evolves D h h' n r Dr :
  tree h n r Dr → evolves D h h' → Dr ## D → tree h' n r Dr.
Proof.
  intros HT Hev Hdisj. eapply tree_agree; [done|].
  intros x Hx. eapply evolves_agree; [done | | set_solver].
  by eapply tree_dom.
Qed.

Lemma forest_evolves D h h' n cs Dcs :
  forest (tree h n) cs Dcs → evolves D h h' → Dcs ## D →
  forest (tree h' n) cs Dcs.
Proof.
  intros HF Hev Hdisj. eapply forest_impl; [done|].
  intros c Dc _ Hsub Hc. eapply tree_evolves; [done | done | set_solver].
Qed.

Lemma forest_mono h n m cs D :
  forest (tree h n) cs D → n ≤ m → forest (tree h m) cs D.
Proof.
  intros HF Hle. eapply forest_impl; [done|].
  intros c Dc _ _ Hc. by eapply tree_mono.
Qed.
End shape_lemmas.

(** ** The generic traversal *)

Section traverse_lemmas.
Context {E LType : Type}.
Local Abbreviation heap := (gmap ref (Layer LType)).
Implicit Types (h : heap) (D : gset ref) (r c x model child : ref).
Implicit Types (items replaced : odict).

Lemma install_spec replaced model h L :
  h !! model = Some L →
  install (E:=E) replaced model h =
    Ret (<[model := mkLayer (ltype L) (odict_update replaced (_sub_layers L))]> h).
Proof.
  revert h L. induction replaced as [|[k v] rest IH]; intros h L HL; simpl.
  - unfold odict_update. simpl. unfold mret, res_mret. f_equal.
    symmetry. apply insert_id. by destruct L.
  - unfold setitem_sub_layers, layer_at. rewrite HL. simpl.
    erewrite IH by apply lookup_insert_eq. simpl.
    by rewrite insert_insert_eq.
Qed.

Variable classify : heap → ref → res E action.
Variable make : heap → ref → E + (heap * ref).

Lemma traverse_loop_app sc items1 items2 replaced h :
  traverse_loop classify make sc (items1 ++ items2) replaced h =
    '(h', replaced') ← traverse_loop classify make sc items1 replaced h;
    traverse_loop classify make sc items2 replaced' h'.
Proof.
  revert replaced h. induction items1 as [|[name child] items1 IH];
    intros replaced h; simpl; [done|].
  destruct (traverse_body classify make sc name child replaced h)
    as [[h1 r1]| |]; simpl; auto.
Qed.

(** *** More fuel does not change a result *)

Lemma traverse_body_mono sc1 sc2 name child replaced h :
  (∀ c h, sc1 c h ≠ Stuck → sc2 c h = sc1 c h) →
  traverse_body classify make sc1 name child replaced h ≠ Stuck →
  traverse_body classify make sc2 name child replaced h =
    traverse_body classify make sc1 name child replaced h.
Proof.
  intros Hext. unfold traverse_body.
  destruct (classify h child) as [[| |]| |]; simpl; try done.
  intros Hna. rewrite Hext; [done|]. intros Heq. by rewrite Heq in Hna.
Qed.

Lemma traverse_loop_mono sc1 sc2 items replaced h :
  (∀ c h, sc1 c h ≠ Stuck → sc2 c h = sc1 c h) →
  traverse_loop classify make sc1 items replaced h ≠ Stuck →
  traverse_loop classify make sc2 items replaced h =
    traverse_loop classify make sc1 items replaced h.
Proof.
  intros Hext. revert replaced h.
  induction items as [|[name child] items IH]; intros replaced h; simpl; [done|].
  intros Hna. rewrite (traverse_body_mono sc1 sc2); [|done|].
  - destruct (traverse_body classify make sc1 name child replaced h)
      as [[h1 r1]| |]; simpl in *; auto.
  - intros Heq. by rewrite Heq in Hna.
Qed.

Lemma traverse_mono fuel k model h :
  traverse classify make fuel model h ≠ Stuck →
  traverse classify make (fuel + k) model h = traverse classify make fuel model h.
Proof.
  revert model h. induction fuel as [|fuel IH]; intros model h; simpl; [done|].
  destruct (named_children h model) as [items| |]; simpl; try done.
  intros Hna.
  rewrite (traverse_loop_mono (traverse classify make fuel)); [done | apply IH |].
  intros Heq. by rewrite Heq in Hna.
Qed.

Lemma traverse_mono_le fuel fuel' model h :
  fuel ≤ fuel' →
  traverse classify make fuel model h ≠ Stuck →
  traverse classify make fuel' model h = traverse classify make fuel model h.
Proof.
  intros Hle Hna. replace fuel' with (fuel + (fuel' - fuel)) by lia.
  by apply traverse_mono.
Qed.

(** *** Frame, shape and progress *)

Hypothesis Hclassify : ∀ h r, is_Some (h !! r) → classify h r ≠ Stuck.
Hypothesis Hmake : allocates_tree make.

Lemma traverse_body_ok sc n name child replaced h Dc :
  (∀ c h D, tree h n c D → pass_post classify make D h c (sc c h)) →
  tree h n child Dc → NoDup replaced.*1 → name ∉ replaced.*1 →
  match traverse_body classify make sc name child replaced h with
  | Stuck => False
  | Raise e => raised classify make e
  | Ret (h1, replaced1) =>
      evolves Dc h h1 ∧ NoDup replaced1.*1 ∧
      (∀ k, k ≠ name → odict_get replaced1 k = odict_get replaced k) ∧
      ∃ n1 D1, tree h1 n1 (final_child replaced1 (name, child)) D1 ∧
               (D1 ⊆ Dc ∪ (dom h1 ∖ dom h))
  end.
Proof.
  intros Hsc HT Hnd Hname. unfold traverse_body.
  assert (odict_get replaced name = None) as Hget by by apply odict_get_None.
  destruct (classify h child) as [a|e|] eqn:Hcl; simpl.
  - destruct a; simpl.
    + split_and!; [apply evolves_refl | done | done |].
      exists n, Dc. unfold final_child. simpl. rewrite Hget. simpl.
      split; [done | set_solver].
    + specialize (Hsc _ _ _ HT). destruct (sc child h) as [h1| |]; simpl in *;
        [|done|done].
      destruct Hsc as (Hev & n1 & D1 & HT1 & Hsub).
      split_and!; [done | done | done |].
      exists n1, D1. unfold final_child. simpl. by rewrite Hget.
    + destruct (make h child) as [e|[h1 v]] eqn:Hmk; simpl.
      { right. eauto. }
      destruct (Hmake _ _ _ _ _ _ HT Hmk) as (Hsub & n1 & D1 & HT1 & HD1).
      split_and!.
      * eapply evolves_trans;
          [by apply evolves_alloc | apply evolves_refl | set_solver | set_solver].
      * by apply odict_set_NoDup.
      * intros k Hk. rewrite odict_get_set. by rewrite decide_False.
      * exists n1, D1. unfold final_child. simpl.
        rewrite odict_get_set, decide_True by done. done.
  - left. eauto.
  - eapply Hclassify; [|done]. by apply tree_root in HT as [_ ?].
Qed.

Lemma traverse_loop_ok sc n items replaced h D :
  (∀ c h D, tree h n c D → pass_post classify make D h c (sc c h)) →
  forest (tree h n) items.*2 D → NoDup items.*1 → NoDup replaced.*1 →
  (∀ k, k ∈ items.*1 → k ∉ replaced.*1) →
  loop_post classify make D h items replaced
    (traverse_loop classify make sc items replaced h).
Proof.
  intros Hsc. revert replaced h D.
  induction items as [|[name child] rest IH]; intros replaced h D HF Hnd Hr Hfresh.
  - simpl. split_and!; [apply evolves_refl | done | done |].
    exists 0, ∅. split; [constructor | set_solver].
  - rewrite !fmap_cons in *. simpl in HF, Hnd, Hfresh.
    inversion HF as [|? ? Dc Dr HTc HFr Hdisj]; subst.
    apply NoDup_cons in Hnd as [Hname Hnd].
    assert (Dr ⊆ dom h) as Hdom.
    { eapply forest_subseteq; [done|]. intros c Dc' _. apply tree_dom. }
    pose proof (traverse_body_ok sc n name child replaced h Dc Hsc HTc Hr) as Hb.
    simpl.
    destruct (traverse_body classify make sc name child replaced h)
      as [[h1 r1]|e|]; simpl; [|by apply Hb; apply Hfresh; left
                               |by apply Hb; apply Hfresh; left].
    destruct Hb as (Hev1 & Hr1 & Hget1 & n1 & D1 & HT1 & HD1);
      [apply Hfresh; left|].
    pose proof (evolves_dom _ _ _ Hev1) as Hdom1.
    pose proof (tree_dom _ _ _ _ HT1) as HdomD1.
    assert (forest (tree h1 n) rest.*2 Dr) as HFr1.
    { eapply forest_evolves; [done | done | set_solver]. }
    assert (∀ k, k ∈ rest.*1 → k ∉ r1.*1) as Hfresh1.
    { intros k Hk. apply odict_get_None. rewrite Hget1 by congruence.
      apply odict_get_None, Hfresh. by right. }
    specialize (IH r1 h1 Dr HFr1 Hnd Hr1 Hfresh1).
    destruct (traverse_loop classify make sc rest r1 h1) as [[h2 r2]|e|];
      simpl in *; [|done|done].
    destruct IH as (Hev2 & Hr2 & Hget2 & n2 & D2 & HF2 & HD2).
    pose proof (evolves_dom _ _ _ Hev2) as Hdom2.
    split_and!.
    + eapply evolves_trans; [done | done | set_solver | set_solver].
    + done.
    + intros k [Hk1 Hk2]%not_elem_of_cons.
      rewrite Hget2 by done. by apply Hget1.
    + exists (n1 `max` n2), (D1 ∪ D2). split; [|set_solver].
      constructor.
      * unfold final_child in *. simpl in *. rewrite Hget2 by done.
        eapply tree_mono; [|apply Nat.le_max_l].
        eapply tree_evolves; [done | done | set_solver].
      * eapply forest_mono; [done | apply Nat.le_max_r].
      * set_solver.
Qed.

Lemma traverse_ok fuel n model h D :
  tree h n model D → n ≤ fuel →
  pass_post classify make D h model (traverse classify make fuel model h).
Proof.
  revert n model h D. induction fuel as [|fuel IH]; intros n model h D HT Hle.
  { destruct n; [done | lia]. }
  destruct n as [|n]; [done|]. simpl in HT.
  destruct HT as (L & D' & HL & Hnd & HF & Hmodel & ->).
  simpl. unfold named_children, layer_at. rewrite HL. simpl.
  assert (∀ c h D, tree h n c D →
            pass_post classify make D h c (traverse classify make fuel c h)) as Hsc.
  { intros c h0 D0 HT0. apply (IH n); [done | lia]. }
  pose proof (traverse_loop_ok _ n (_sub_layers L) [] h D' Hsc HF Hnd) as Hloop.
  destruct (traverse_loop classify make (traverse classify make fuel)
              (_sub_layers L) [] h) as [[h1 r1]|e|]; simpl in *.
  2,3: apply Hloop; [constructor | intros ? _; apply not_elem_of_nil].
  destruct Hloop as (Hev & Hr1 & Hget & n1 & D1 & HF1 & HD1);
    [constructor | intros ? _; apply not_elem_of_nil |].
  assert (∀ k, k ∈ r1.*1 → k ∈ (_sub_layers L).*1) as Hkeys.
  { intros k Hk. destruct (decide (k ∈ (_sub_layers L).*1)); [done|].
    exfalso. apply odict_get_None in Hk; [done|]. by rewrite Hget. }
  assert (h1 !! model = Some L) as HL1.
  { rewrite <-HL. eapply evolves_agree; [done | | done].
    apply elem_of_dom. eauto. }
  pose proof (evolves_dom _ _ _ Hev) as Hdom.
  assert (model ∈ dom h) as Hmdom by (apply elem_of_dom; eauto).
  rewrite (install_spec _ _ _ _ HL1). simpl. split.
  - intros x Lx HLx. destruct (decide (x = model)) as [->|Hne].
    + rewrite lookup_insert_eq. eexists. split_and!; [done | | |].
      * simpl. congruence.
      * simpl. rewrite odict_update_keys by done. congruence.
      * intros Hx. exfalso. set_solver.
    + rewrite lookup_insert_ne by done.
      destruct (Hev _ _ HLx) as (L' & ? & ? & ? & Heq).
      exists L'. split_and!; try done. intros Hx. apply Heq. set_solver.
  - exists (S n1), ({[model]} ∪ D1). split.
    + simpl. eexists _, D1. rewrite lookup_insert_eq. split_and!; [done | | | | done].
      * simpl. by rewrite odict_update_keys.
      * simpl. rewrite odict_update_map by done.
        rewrite <-list_fmap_compose.
        eapply forest_impl; [exact HF1|]. intros c Dc _ Hsub Hc.
        eapply tree_agree; [done|]. intros x Hx.
        rewrite lookup_insert_ne; [done|]. set_solver.
      * set_solver.
    + rewrite dom_insert_L. set_solver.
Qed.

(** *** What the pass does with one child

    The loop reaches [child] in the state [(hi, ri)] and leaves it in the
    state [(hj, rj)].  Up to [hi] nothing in the subtree of [child] has
    changed.  After [hj], neither that subtree, nor the objects allocated
    for this child, nor the subtree of the child finally bound to [name]
    change any more, and that final child is the one staged for [name],
    or [child] itself when nothing was staged. *)
Lemma traverse_child fuel n model h D L pre name child post h' :
  tree h n model D → h !! model = Some L →
  _sub_layers L = pre ++ (name, child) :: post →
  traverse classify make (S fuel) model h = Ret h' →
  ∃ hi ri hj rj,
    traverse_loop classify make (traverse classify make fuel) pre [] h
      = Ret (hi, ri) ∧
    traverse_body classify make (traverse classify make fuel) name child ri hi
      = Ret (hj, rj) ∧
    hi !! model = Some L ∧ odict_get ri name = None ∧
    (∀ x, reach h child x → hi !! x = h !! x) ∧
    (∃ L', h' !! model = Some L' ∧
           odict_get (_sub_layers L') name = Some (final_child rj (name, child))) ∧
    (∀ x, reach h child x ∨ (x ∈ dom hj ∧ x ∉ dom hi) → h' !! x = hj !! x) ∧
    (∀ x, reach hj (final_child rj (name, child)) x → h' !! x = hj !! x).
Proof.
  intros HT HL Hsplit Hrun.
  destruct n as [|n]; [done|]. simpl in HT.
  destruct HT as (L0 & D' & HL0 & Hnd & HF & Hmodel & ->).
  assert (L0 = L) as -> by congruence. clear HL0.
  (* the pieces of the run, with the fuel at hand *)
  simpl in Hrun. unfold named_children, layer_at in Hrun.
  rewrite HL in Hrun. simpl in Hrun.
  apply res_bind_Ret in Hrun as ([h1 r1] & Hloop & Hinst).
  rewrite Hsplit, traverse_loop_app in Hloop.
  apply res_bind_Ret in Hloop as ([hi ri] & Hpre & Hloop).
  simpl in Hloop.
  apply res_bind_Ret in Hloop as ([hj rj] & Hbody & Hpost).
  exists hi, ri, hj, rj. split; [done|]. split; [done|].
  (* the same pieces with enough fuel for the lemmas above *)
  set (sc := traverse classify make (fuel + n)).
  assert (∀ c h, traverse classify make fuel c h ≠ Stuck →
                 sc c h = traverse classify make fuel c h) as Hext.
  { intros c h0. apply traverse_mono. }
  assert (∀ c h D, tree h n c D → pass_post classify make D h c (sc c h)) as Hsc.
  { intros c h0 D0 HT0. apply (traverse_ok _ n); [done | lia]. }
  assert (traverse_loop classify make sc pre [] h = Ret (hi, ri)) as Hpre'.
  { rewrite (traverse_loop_mono (traverse classify make fuel) sc)
      by (done || by rewrite Hpre). done. }
  assert (traverse_body classify make sc name child ri hi = Ret (hj, rj)) as Hbody'.
  { rewrite (traverse_body_mono (traverse classify make fuel) sc)
      by (done || by rewrite Hbody). done. }
  assert (traverse_loop classify make sc post rj hj = Ret (h1, r1)) as Hpost'.
  { rewrite (traverse_loop_mono (traverse classify make fuel) sc)
      by (done || by rewrite Hpost). done. }
  clear Hpre Hbody Hpost Hext.
  (* the children, split at [child] *)
  rewrite Hsplit in HF, Hnd.
  rewrite fmap_app, fmap_cons in HF. rewrite fmap_app, fmap_cons in Hnd.
  simpl in HF, Hnd.
  apply forest_app_inv in HF as (Dpre & Drest & HFpre & HFrest & Hdisj1 & ->).
  inversion HFrest as [|? ? Dc Dpost HTc HFpost Hdisj2]; subst. clear HFrest.
  apply NoDup_app in Hnd as (Hndpre & Hnotin & Hndrest).
  apply NoDup_cons in Hndrest as [Hname Hndpost].
  assert (name ∉ pre.*1) as Hname'.
  { intros Hin. apply (Hnotin _ Hin). left. }
  assert (Dc ⊆ dom h) as HdomDc by by eapply tree_dom.
  assert (Dpost ⊆ dom h) as HdomDpost.
  { eapply forest_subseteq; [done|]. intros c Dc' _. apply tree_dom. }
  assert (model ∈ dom h) as Hmdom by (apply elem_of_dom; eauto).
  (* the prefix *)
  pose proof (traverse_loop_ok sc n pre [] h Dpre Hsc HFpre Hndpre)
    as Hok1.
  rewrite Hpre' in Hok1. simpl in Hok1.
  destruct Hok1 as (Hev1 & Hri & Hget1 & _);
    [constructor | intros ? _; apply not_elem_of_nil |].
  pose proof (evolves_dom _ _ _ Hev1) as Hdom1.
  assert (tree hi n child Dc) as HTc1.
  { eapply tree_evolves; [done | done | set_solver]. }
  assert (forest (tree hi n) post.*2 Dpost) as HFpost1.
  { eapply forest_evolves; [done | done | set_solver]. }
  (* the child *)
  pose proof (traverse_body_ok sc n name child ri hi Dc Hsc HTc1 Hri)
    as Hok2.
  rewrite Hbody' in Hok2.
  destruct Hok2 as (Hev2 & Hrj & Hget2 & n1 & D1 & HT1 & HD1).
  { apply odict_get_None. by rewrite Hget1. }
  pose proof (evolves_dom _ _ _ Hev2) as Hdom2.
  assert (forest (tree hj n) post.*2 Dpost) as HFpost2.
  { eapply forest_evolves; [done | done | set_solver]. }
  (* the rest of the loop *)
  pose proof (traverse_loop_ok sc n post rj hj Dpost Hsc
                HFpost2 Hndpost Hrj) as Hok3.
  rewrite Hpost' in Hok3. simpl in Hok3.
  destruct Hok3 as (Hev3 & Hr1 & Hget3 & _).
  { intros k Hk. apply odict_get_None.
    rewrite Hget2 by (intros ->; done). apply Hget1.
    intros Hin. apply (Hnotin _ Hin). by right. }
  pose proof (evolves_dom _ _ _ Hev3) as Hdom3.
  (* the installation *)
  assert (hi !! model = Some L) as HLi.
  { rewrite <-HL. eapply evolves_agree; [done | done | set_solver]. }
  assert (hj !! model = Some L) as HLj.
  { rewrite <-HLi. eapply evolves_agree; [done | set_solver | set_solver]. }
  assert (h1 !! model = Some L) as HL1.
  { rewrite <-HLj. eapply evolves_agree; [done | set_solver | set_solver]. }
  rewrite (install_spec _ _ _ _ HL1) in Hinst. injection Hinst as <-.
  assert (∀ x, x ∈ Dc ∨ (x ∈ dom hj ∧ x ∉ dom hi) →
               <[model := mkLayer (ltype L) (odict_update r1 (_sub_layers L))]> h1 !! x
               = hj !! x) as Hstable.
  { intros x Hx. rewrite lookup_insert_ne by set_solver.
    eapply evolves_agree; [done | set_solver | set_solver]. }
  split; [done|]. split; [by apply Hget1|]. split.
  { intros x Hx. pose proof (reach_in_tree _ _ _ _ _ HTc Hx).
    eapply evolves_agree; [done | set_solver | set_solver]. }
  split.
  { eexists. rewrite lookup_insert_eq. split; [done|]. simpl.
    assert (NoDup (_sub_layers L).*1) as HndL.
    { rewrite Hsplit, fmap_app, fmap_cons. apply NoDup_app.
      split_and!; [done | done |]. by apply NoDup_cons. }
    assert (∀ k, k ∈ r1.*1 → k ∈ (_sub_layers L).*1) as Hkeys.
    { intros k Hk. rewrite Hsplit, fmap_app, fmap_cons. simpl.
      destruct (decide (k ∈ post.*1)); [set_solver|].
      destruct (decide (k = name)) as [->|]; [set_solver|].
      destruct (decide (k ∈ pre.*1)); [set_solver|].
      exfalso. apply odict_get_None in Hk; [done|].
      rewrite Hget3, Hget2, Hget1 by done. done. }
    rewrite odict_update_map by done.
    apply odict_get_elem.
    - rewrite <-list_fmap_compose. done.
    - apply list_elem_of_fmap. exists (name, child). split.
      + unfold final_child. simpl. by rewrite Hget3.
      + rewrite Hsplit. set_solver. }
  split.
  { intros x [Hx|Hx]; apply Hstable; [left | by right].
    exact (reach_in_tree _ _ _ _ _ HTc Hx). }
  intros x Hx. apply Hstable.
  pose proof (reach_in_tree _ _ _ _ _ HT1 Hx).
  pose proof (tree_dom _ _ _ _ HT1). set_solver.
Qed.

(** The same, by the decision taken for the child. *)
Lemma traverse_child_cases fuel n model h D L pre name child post hi ri h' :
  tree h n model D → h !! model = Some L →
  _sub_layers L = pre ++ (name, child) :: post →
  traverse_loop classify make (traverse classify make fuel) pre [] h
    = Ret (hi, ri) →
  traverse classify make (S fuel) model h = Ret h' →
  ∃ a, classify hi child = Ret a ∧
    match a with
    | Skip =>
        child_of h' model name child ∧
        (∀ x, reach h child x → h' !! x = h !! x)
    | Recurse =>
        ∃ hj, traverse classify make fuel child hi = Ret hj ∧
              child_of h' model name child ∧
              (∀ x, reach hj child x → h' !! x = hj !! x)
    | Replace =>
        ∃ hj v, make hi child = inr (hj, v) ∧
                child_of h' model name v ∧
                (∀ x, reach h child x → h' !! x = h !! x) ∧
                (∀ x, reach hj v x → h' !! x = hj !! x)
    end.
Proof.
  intros HT HL Hsplit Hpre Hrun.
  destruct (traverse_child _ _ _ _ _ _ _ _ _ _ _ HT HL Hsplit Hrun)
    as (hi' & ri' & hj & rj & Hpre' & Hbody & HLi & Hnone & Hsame & Hbind
        & Hstable & Hfinal).
  rewrite Hpre in Hpre'. injection Hpre' as <- <-.
  (* the subtree of the child *)
  assert (∃ m Dc, tree h m child Dc) as (m & Dc & HTc).
  { destruct n as [|n]; [done|]. simpl in HT.
    destruct HT as (L0 & D' & HL0 & _ & HF & _).
    assert (L0 = L) as -> by congruence.
    assert (child ∈ (_sub_layers L).*2) as Hin.
    { rewrite Hsplit. apply list_elem_of_fmap. exists (name, child). set_solver. }
    destruct (forest_elem _ _ _ _ HF Hin) as (Dc & ? & _). eauto. }
  assert (tree hi m child Dc) as HTci.
  { eapply tree_agree; [done|]. intros x Hx. apply Hsame. by eapply tree_reach. }
  unfold traverse_body in Hbody.
  destruct (classify hi child) as [a| |]; simpl in Hbody; [|done|done].
  exists a. split; [done|].
  destruct Hbind as (L' & HL' & Hbind). unfold final_child in *. simpl in *.
  destruct a.
  - injection Hbody as <- <-. rewrite Hnone in Hbind. split.
    + by exists L'.
    + intros x Hx. rewrite Hstable by auto. by apply Hsame.
  - apply res_bind_Ret in Hbody as (hj' & Hrec & Hbody).
    injection Hbody as <- <-. rewrite Hnone in Hbind, Hfinal.
    exists hj'. split_and!; [done | by exists L' | done].
  - apply res_bind_Ret in Hbody as ([hj' v] & Hmk%call_Ret & Hbody).
    injection Hbody as <- <-.
    rewrite odict_get_set, decide_True in Hbind, Hfinal by done.
    exists hj', v. split_and!; [done | by exists L' | | done].
    intros x Hx. rewrite Hstable by auto.
    destruct (Hmake _ _ _ _ _ _ HTci Hmk) as (Hsub & _).
    rewrite <-Hsame by done.
    assert (is_Some (hi !! x)) as [Lx HLx].
    { apply elem_of_dom. apply (tree_dom _ _ _ _ HTci).
      exact (reach_in_tree _ _ _ _ _ HTc Hx). }
    rewrite HLx. eapply lookup_weaken; done.
Qed.

(** While the loop runs, the node it runs on is as before the pass, and
    the names it stages are names of children it has gone through. *)
Lemma traverse_prefix fuel n model h D L pre post hi ri :
  tree h n model D → h !! model = Some L →
  _sub_layers L = pre ++ post →
  traverse_loop classify make (traverse classify make fuel) pre [] h
    = Ret (hi, ri) →
  hi !! model = Some L ∧ (∀ k, k ∈ ri.*1 → k ∈ pre.*1).
Proof.
  intros HT HL Hsplit Hpre.
  destruct n as [|n]; [done|]. simpl in HT.
  destruct HT as (L0 & D' & HL0 & Hnd & HF & Hmodel & ->).
  assert (L0 = L) as -> by congruence. clear HL0.
  set (sc := traverse classify make (fuel + n)).
  assert (∀ c h D, tree h n c D → pass_post classify make D h c (sc c h)) as Hsc.
  { intros c h0 D0 HT0. apply (traverse_ok _ n); [done | lia]. }
  assert (traverse_loop classify make sc pre [] h = Ret (hi, ri)) as Hpre'.
  { rewrite (traverse_loop_mono (traverse classify make fuel) sc);
      [done | intros c h0; apply traverse_mono | by rewrite Hpre]. }
  rewrite Hsplit in HF, Hnd.
  rewrite fmap_app in HF. rewrite fmap_app in Hnd.
  apply forest_app_inv in HF as (Dpre & Dpost & HFpre & _ & _ & ->).
  apply NoDup_app in Hnd as (Hndpre & _ & _).
  pose proof (traverse_loop_ok sc n pre [] h Dpre Hsc HFpre Hndpre) as Hok.
  rewrite Hpre' in Hok. simpl in Hok.
  destruct Hok as (Hev & _ & Hget & _);
    [constructor | intros ? _; apply not_elem_of_nil |].
  split.
  - rewrite <-HL. eapply evolves_agree; [done | | set_solver].
    apply elem_of_dom. eauto.
  - intros k Hk. destruct (decide (k ∈ pre.*1)); [done|].
    exfalso. apply odict_get_None in Hk; [done|]. by rewrite Hget.
Qed.

(** What a pass that returns has done. *)
Lemma traverse_ret fuel n model h D h' :
  tree h n model D → traverse classify make fuel model h = Ret h' →
  evolves D h h' ∧ ∃ n' D', tree h' n' model D' ∧ (D' ⊆ D ∪ (dom h' ∖ dom h)).
Proof.
  intros HT Hrun.
  pose proof (traverse_ok (fuel + n) n model h D HT) as Hok.
  rewrite traverse_mono, Hrun in Hok by by rewrite Hrun.
  apply Hok. lia.
Qed.

(** With enough fuel a pass does not get stuck, and its result does not
    depend on the fuel. *)
Lemma traverse_total n model h D :
  tree h n model D →
  ∃ out, (∀ fuel, n ≤ fuel → traverse classify make fuel model h = out) ∧
         pass_post classify make D h model out.
Proof.
  intros HT. exists (traverse classify make n model h).
  pose proof (traverse_ok n n model h D HT (le_n _)) as Hok.
  split; [|done]. intros fuel Hle. apply traverse_mono_le; [done|].
  intros Heq. by rewrite Heq in Hok.
Qed.
End traverse_lemmas.

(** ** The calls of the generic traversal *)

Section calls_lemmas.
Context {E LType : Type}.
Local Abbreviation heap := (gmap ref (Layer LType)).
Implicit Types (h : heap) (D : gset ref) (r c x model child p : ref).

Variable classify : heap → ref → res E action.
Variable make : heap → ref → E + (heap * ref).
Hypothesis Hclassify : ∀ h r, is_Some (h !! r) → classify h r ≠ Stuck.
Hypothesis Hmake : allocates_tree make.

Local Abbreviation run := (traverse classify make).
Local Abbreviation loop := (traverse_loop classify make).

(** When the loop comes to a child, the subtree of the child is as it was
    before the pass. *)
Lemma traverse_prefix_child fuel n model h D L pre name child post hi ri :
  tree h n model D → h !! model = Some L →
  _sub_layers L = pre ++ (name, child) :: post →
  loop (run fuel) pre [] h = Ret (hi, ri) →
  ∃ m Dc, tree h m child Dc ∧ Dc ⊆ D ∧
          (∀ x, x ∈ Dc → hi !! x = h !! x) ∧ dom h ⊆ dom hi.
Proof.
  intros HT HL Hsplit Hpre.
  destruct n as [|n]; [done|]. simpl in HT.
  destruct HT as (L0 & D' & HL0 & Hnd & HF & Hmodel & ->).
  assert (L0 = L) as -> by congruence. clear HL0.
  set (sc := run (fuel + n)).
  assert (∀ c h D, tree h n c D → pass_post classify make D h c (sc c h)) as Hsc.
  { intros c h0 D0 HT0.
    apply (traverse_ok _ _ Hclassify Hmake _ n); [done | lia]. }
  assert (loop sc pre [] h = Ret (hi, ri)) as Hpre'.
  { rewrite (traverse_loop_mono _ _ (run fuel) sc);
      [done | intros c h0; apply traverse_mono | by rewrite Hpre]. }
  rewrite Hsplit in HF, Hnd.
  rewrite fmap_app, fmap_cons in HF. rewrite fmap_app in Hnd.
  apply forest_app_inv in HF as (Dpre & Drest & HFpre & HFrest & Hdisj & ->).
  inversion HFrest as [|? ? Dc Dpost HTc HFpost Hdisj2]; subst. clear HFrest.
  apply NoDup_app in Hnd as (Hndpre & _ & _).
  pose proof (traverse_loop_ok _ _ Hclassify Hmake sc n pre [] h Dpre
                Hsc HFpre Hndpre) as Hok.
  rewrite Hpre' in Hok. simpl in Hok.
  destruct Hok as (Hev & _); [constructor | intros ? _; apply not_elem_of_nil |].
  exists n, Dc. split_and!; [done | set_solver | | by eapply evolves_dom].
  intros x Hx. eapply evolves_agree; [done | | set_solver].
  by apply (tree_dom _ _ _ _ HTc).
Qed.

(** A call the pass leads to is made on a subtree of the original tree
    that no earlier call has touched. *)
Lemma calls_tree fuel n model h D f p hp :
  tree h n model D → calls classify make fuel model h f p hp →
  ∃ np Dp, tree hp np p Dp ∧ Dp ⊆ D ∧ tree h np p Dp ∧
           (∀ x, x ∈ Dp → hp !! x = h !! x).
Proof.
  intros HT Hcalls. revert n D HT.
  induction Hcalls as [fuel model h
                      |fuel model h L pre name child post hi ri f p hp
                         HL Hsplit Hpre Hcl Hcalls IH]; intros n D HT.
  - exists n, D. done.
  - destruct (traverse_prefix_child _ _ _ _ _ _ _ _ _ _ _ _ HT HL Hsplit Hpre)
      as (m & Dc & HTc & HDc & Hsame & _).
    assert (tree hi m child Dc) as HTci by by eapply tree_agree.
    destruct (IH _ _ HTci) as (np & Dp & HTp & HDp & HTpi & Hsamep).
    exists np, Dp. split_and!; [done | set_solver | |].
    + eapply tree_agree; [exact HTpi|]. intros x Hx. symmetry. apply Hsame.
      set_solver.
    + intros x Hx. rewrite Hsamep by done. apply Hsame. set_solver.
Qed.

(** When the pass returns, so has every call it led to, and what such a
    call left of the subtree it was made on is still there. *)
Lemma calls_stable fuel n model h D f p hp h' :
  tree h n model D → calls classify make fuel model h f p hp →
  run fuel model h = Ret h' →
  ∃ hp', run f p hp = Ret hp' ∧ (∀ x, reach hp p x → h' !! x = hp' !! x).
Proof.
  intros HT Hcalls. revert n D h' HT.
  induction Hcalls as [fuel model h
                      |fuel model h L pre name child post hi ri f p hp
                         HL Hsplit Hpre Hcl Hcalls IH]; intros n D h' HT Hrun.
  - exists h'. done.
  - destruct (traverse_child _ _ Hclassify Hmake _ _ _ _ _ _ _ _ _ _ _
                HT HL Hsplit Hrun)
      as (hi' & ri' & hj & rj & Hpre' & Hbody & _ & _ & Hsame & _ & Hstable & _).
    rewrite Hpre in Hpre'. injection Hpre' as <- <-.
    unfold traverse_body in Hbody. rewrite Hcl in Hbody. simpl in Hbody.
    apply res_bind_Ret in Hbody as (hj' & Hrec & Hbody).
    injection Hbody as <- <-.
    destruct (traverse_prefix_child _ _ _ _ _ _ _ _ _ _ _ _ HT HL Hsplit Hpre)
      as (m & Dc & HTc & HDc & Hsamec & _).
    assert (tree hi m child Dc) as HTci by by eapply tree_agree.
    destruct (IH _ _ _ HTci Hrec) as (hp' & Hrunp & Hstablep).
    exists hp'. split; [done|]. intros x Hx.
    rewrite <-Hstablep by done. apply Hstable. left.
    destruct (calls_tree _ _ _ _ _ _ _ _ HTci Hcalls) as (np & Dp & HTp & HDp & _).
    eapply tree_reach; [exact HTc|].
    pose proof (reach_in_tree _ _ _ _ _ HTp Hx). set_solver.
Qed.

(** An object of the tree is either one the pass is called on, or one the
    pass leaves as it is. *)
Lemma called_or_untouched fuel n model h D h' x :
  tree h n model D → run fuel model h = Ret h' → x ∈ D →
  (∃ f hq, calls classify make fuel model h (S f) x hq) ∨ h' !! x = h !! x.
Proof.
  revert fuel model h D h'.
  induction n as [|n IH]; intros fuel model h D h' HT Hrun Hx; [done|].
  destruct fuel as [|fuel]; [done|].
  pose proof HT as HT'. simpl in HT.
  destruct HT as (L & D' & HL & Hnd & HF & Hmodel & ->).
  apply elem_of_union in Hx as [->%elem_of_singleton|Hx].
  { left. exists fuel, h. constructor. }
  destruct (forest_elem_of _ _ _ _ HF Hx) as (c & Dc & Hc & HTc & Hxc).
  apply list_elem_of_fmap in Hc as ([name c'] & -> & Hin). cbn [snd] in *.
  apply list_elem_of_split in Hin as (pre & post & Hsplit).
  destruct (traverse_child _ _ Hclassify Hmake _ _ _ _ _ _ _ _ _ _ _
              HT' HL Hsplit Hrun)
    as (hi & ri & hj & rj & Hpre & Hbody & _ & _ & Hsame & _ & Hstable & _).
  assert (reach h c' x) as Hreach by by eapply tree_reach.
  assert (tree hi n c' Dc) as HTci.
  { eapply tree_agree; [done|]. intros y Hy. apply Hsame. by eapply tree_reach. }
  assert (x ∈ dom hi) as Hxi by by apply (tree_dom _ _ _ _ HTci).
  unfold traverse_body in Hbody.
  destruct (classify hi c') as [a| |] eqn:Hcl; simpl in Hbody; [|done|done].
  destruct a.
  - injection Hbody as <- <-. right.
    rewrite Hstable by auto. by apply Hsame.
  - apply res_bind_Ret in Hbody as (hj' & Hrec & Hbody).
    injection Hbody as <- <-.
    destruct (IH _ _ _ _ _ HTci Hrec Hxc) as [(f & hq & Hcalls)|Heq].
    + left. exists f, hq. by eapply calls_below.
    + right. rewrite Hstable by auto. rewrite Heq. by apply Hsame.
  - apply res_bind_Ret in Hbody as ([hj' v] & Hmk%call_Ret & Hbody).
    injection Hbody as <- <-. right.
    rewrite Hstable by auto. rewrite <-Hsame by done.
    destruct (Hmake _ _ _ _ _ _ HTci Hmk) as (Hsub & _).
    apply elem_of_dom in Hxi as [Lx HLx]. rewrite HLx.
    by eapply lookup_weaken.
Qed.

(** *** Exceptions *)

Lemma calls_raise fuel model h f p hp e :
  calls classify make fuel model h f p hp →
  run f p hp = Raise e → run fuel model h = Raise e.
Proof.
  induction 1 as [fuel model h
                 |fuel model h L pre name child post hi ri f p hp
                    HL Hsplit Hpre Hcl Hcalls IH]; intros Hraise; [done|].
  simpl. unfold named_children, layer_at. rewrite HL. simpl.
  rewrite Hsplit, traverse_loop_app, Hpre. simpl.
  unfold traverse_body. rewrite Hcl. simpl. by rewrite IH.
Qed.

Lemma traverse_loop_Raise sc items replaced h e :
  loop sc items replaced h = Raise e →
  ∃ pre name child post hi ri,
    items = pre ++ (name, child) :: post ∧
    loop sc pre replaced h = Ret (hi, ri) ∧
    traverse_body classify make sc name child ri hi = Raise e.
Proof.
  revert replaced h.
  induction items as [|[name child] items IH]; intros replaced h; simpl; [done|].
  destruct (traverse_body classify make sc name child replaced h)
    as [[h1 r1]|e'|] eqn:Hbody; simpl; [| |done].
  - intros Hloop. destruct (IH _ _ Hloop)
      as (pre & name' & child' & post & hi & ri & -> & Hpre & Hb).
    exists ((name, child) :: pre), name', child', post, hi, ri.
    split_and!; [done | | done]. simpl. by rewrite Hbody.
  - intros [= ->]. exists [], name, child, items, h, replaced. done.
Qed.

Lemma install_not_Raise replaced model h e :
  install (E:=E) replaced model h ≠ Raise e.
Proof.
  revert h. induction replaced as [|[k v] rest IH]; intros h; simpl; [done|].
  unfold setitem_sub_layers, layer_at.
  destruct (h !! model); simpl; [apply IH | done].
Qed.

(** A pass raises only what the decision or the constructor raised at a
    child that one of its calls came to. *)
Lemma traverse_Raise_inv fuel model h e :
  run fuel model h = Raise e →
  ∃ f p hp L pre name child post hi ri,
    calls classify make fuel model h (S f) p hp ∧
    hp !! p = Some L ∧ _sub_layers L = pre ++ (name, child) :: post ∧
    loop (run f) pre [] hp = Ret (hi, ri) ∧
    (classify hi child = Raise e ∨
     (classify hi child = Ret Replace ∧ make hi child = inl e)).
Proof.
  revert model h. induction fuel as [|fuel IH]; intros model h; simpl; [done|].
  unfold named_children, layer_at.
  destruct (h !! model) as [L|] eqn:HL; simpl; [|done].
  destruct (loop (run fuel) (_sub_layers L) [] h) as [[h1 r1]|e'|] eqn:Hloop;
    simpl; [by intros ?%install_not_Raise | | done].
  intros [= ->].
  apply traverse_loop_Raise in Hloop
    as (pre & name & child & post & hi & ri & Hsplit & Hpre & Hbody).
  unfold traverse_body in Hbody.
  destruct (classify hi child) as [a|e'|] eqn:Hcl; simpl in Hbody; [| |done].
  - destruct a; simpl in Hbody; [done | |].
    + destruct (run fuel child hi) as [hj|e'|] eqn:Hrec; simpl in Hbody;
        [done | | done].
      injection Hbody as ->.
      destruct (IH _ _ Hrec)
        as (f & p & hp & Lp & pre' & name' & child' & post' & hi' & ri'
            & Hcalls & ?).
      exists f, p, hp, Lp, pre', name', child', post', hi', ri'.
      split; [|done]. by eapply calls_below.
    + destruct (make hi child) as [e'|[hj v]] eqn:Hmk; simpl in Hbody; [|done].
      injection Hbody as ->.
      exists fuel, model, h, L, pre, name, child, post, hi, ri.
      split_and!; [constructor | done..| by right].
  - injection Hbody as ->.
    exists fuel, model, h, L, pre, name, child, post, hi, ri.
    split_and!; [constructor | done..| by left].
Qed.

Lemma traverse_Raise_at_child fuel model h L pre name child post hi ri e :
  h !! model = Some L → _sub_layers L = pre ++ (name, child) :: post →
  loop (run fuel) pre [] h = Ret (hi, ri) →
  (classify hi child = Raise e ∨
   (classify hi child = Ret Replace ∧ make hi child = inl e)) →
  run (S fuel) model h = Raise e.
Proof.
  intros HL Hsplit Hpre Hcause. simpl. unfold named_children, layer_at.
  rewrite HL. simpl. rewrite Hsplit, traverse_loop_app, Hpre. simpl.
  unfold traverse_body. destruct Hcause as [->|[-> ->]]; done.
Qed.
End calls_lemmas.

(** ** The two passes as traversals *)

Section pass_lemmas.
Context {E LType Cfg : Type} `{!EqDecision LType}.
Context `{!QuantConfig E LType Cfg}.
Local Abbreviation heap := (gmap ref (Layer LType)).
Implicit Types (h : heap) (config : Cfg).

Lemma convert_loop_is_traverse sc sc' config items replaced h :
  (∀ c h, sc c h = sc' c h) →
  convert_loop sc config items replaced h =
    traverse_loop (convert_action config) (_get_qat_layer config) sc'
      items replaced h.
Proof.
  intros Hsc. revert replaced h.
  induction items as [|[name child] items IH]; intros replaced h; simpl; [done|].
  unfold traverse_body, convert_action.
  destruct (_is_quantifiable config h child) as [e|[|]]; simpl; [done| |by auto].
  destruct (type h child) as [ty| |]; simpl; [|done|done].
  case_bool_decide; simpl.
  - rewrite Hsc. destruct (sc' child h); simpl; auto.
  - destruct (_get_qat_layer config h child) as [e|[h1 v]]; simpl; auto.
Qed.

Lemma convert_is_traverse fuel model config h :
  _convert_to_quant_layers fuel model config h =
    traverse (convert_action config) (_get_qat_layer config) fuel model h.
Proof.
  revert model h. induction fuel as [|fuel IH]; intros model h; simpl; [done|].
  destruct (named_children h model) as [items| |]; simpl; [|done|done].
  by rewrite (convert_loop_is_traverse _
                (traverse (convert_action config) (_get_qat_layer config) fuel)).
Qed.

Lemma observe_loop_is_traverse sc sc' config items replaced h :
  (∀ c h, sc c h = sc' c h) →
  observe_loop sc config items replaced h =
    traverse_loop (observe_action config) (_get_observe_wrapper config) sc'
      items replaced h.
Proof.
  intros Hsc. revert replaced h.
  induction items as [|[name child] items IH]; intros replaced h; simpl; [done|].
  unfold traverse_body, observe_action.
  destruct (_need_observe config h child) as [e|[|]]; simpl; [done| |].
  - destruct (_get_observe_wrapper config h child) as [e|[h1 v]]; simpl; auto.
  - rewrite Hsc. destruct (sc' child h); simpl; auto.
Qed.

Lemma observe_is_traverse fuel model config h :
  _insert_activation_observers fuel model config h =
    traverse (observe_action config) (_get_observe_wrapper config) fuel model h.
Proof.
  revert model h. induction fuel as [|fuel IH]; intros model h; simpl; [done|].
  destruct (named_children h model) as [items| |]; simpl; [|done|done].
  by rewrite (observe_loop_is_traverse _
                (traverse (observe_action config) (_get_observe_wrapper config) fuel)).
Qed.

Lemma convert_action_not_Stuck config h r :
  is_Some (h !! r) → convert_action config h r ≠ Stuck.
Proof.
  intros [L HL]. unfold convert_action, type, layer_at. rewrite HL.
  destruct (_is_quantifiable config h r) as [e|[|]]; simpl; [done| |done].
  by case_bool_decide.
Qed.

Lemma observe_action_not_Stuck config h r :
  is_Some (h !! r) → observe_action config h r ≠ Stuck.
Proof.
  intros _. unfold observe_action.
  by destruct (_need_observe config h r) as [e|[|]].
Qed.

Lemma convert_action_Raise config h r e :
  convert_action config h r = Raise e → _is_quantifiable config h r = inl e.
Proof.
  unfold convert_action, type, layer_at.
  destruct (_is_quantifiable config h r) as [e'|[|]]; simpl; [congruence| |done].
  destruct (h !! r); simpl; [|done]. by case_bool_decide.
Qed.

Lemma observe_action_Raise config h r e :
  observe_action config h r = Raise e → _need_observe config h r = inl e.
Proof.
  unfold observe_action.
  destruct (_need_observe config h r) as [e'|[|]]; simpl; [congruence|done..].
Qed.

Lemma convert_action_Replace config h child :
  convert_action config h child = Ret Replace →
  _is_quantifiable config h child = inr true ∧
  ∃ Lc, h !! child = Some Lc ∧ ltype Lc ∈ qat_layer_mappings config.
Proof.
  unfold convert_action, type, layer_at.
  destruct (_is_quantifiable config h child) as [e|[|]]; simpl; [done| |done].
  destruct (h !! child) as [Lc|]; simpl; [|done].
  case_bool_decide as Hin; [done|]. intros _. split; [done|].
  exists Lc. done.
Qed.

Lemma observe_action_Replace config h child :
  observe_action config h child = Ret Replace →
  _need_observe config h child = inr true.
Proof.
  unfold observe_action.
  by destruct (_need_observe config h child) as [e|[|]].
Qed.
End pass_lemmas.

(** ** The passes and [quantize] *)

Section rewriter_lemmas.
Context {E LType Cfg : Type} `{!EqDecision LType}.
Context `{!QuantConfig E LType Cfg} `{!DeepCopy E LType Cfg}.
Local Abbreviation heap := (gmap ref (Layer LType)).
Implicit Types (h : heap) (config : Cfg) (w : world LType Cfg).

Lemma convert_ret fuel n model config h D h' :
  allocates_tree (_get_qat_layer config) →
  tree h n model D → _convert_to_quant_layers fuel model config h = Ret h' →
  evolves D h h' ∧ ∃ n' D', tree h' n' model D' ∧ (D' ⊆ D ∪ (dom h' ∖ dom h)).
Proof.
  intros Hq HT Hrun. rewrite convert_is_traverse in Hrun.
  eapply traverse_ret; [apply convert_action_not_Stuck | done..].
Qed.

Lemma observe_ret fuel n model config h D h' :
  allocates_tree (_get_observe_wrapper config) →
  tree h n model D → _insert_activation_observers fuel model config h = Ret h' →
  evolves D h h' ∧ ∃ n' D', tree h' n' model D' ∧ (D' ⊆ D ∪ (dom h' ∖ dom h)).
Proof.
  intros Hq HT Hrun. rewrite observe_is_traverse in Hrun.
  eapply traverse_ret; [apply observe_action_not_Stuck | done..].
Qed.

Lemma convert_child fuel n model config h D name child hi ri h' :
  allocates_tree (_get_qat_layer config) →
  tree h n model D →
  convert_reaches fuel model config h name child hi ri →
  _convert_to_quant_layers (S fuel) model config h = Ret h' →
  ∃ a, convert_action config hi child = Ret a ∧
    match a with
    | Skip =>
        child_of h' model name child ∧
        (∀ x, reach h child x → h' !! x = h !! x)
    | Recurse =>
        ∃ hj, _convert_to_quant_layers fuel child config hi = Ret hj ∧
              child_of h' model name child ∧
              (∀ x, reach hj child x → h' !! x = hj !! x)
    | Replace =>
        ∃ hj v, _get_qat_layer config hi child = inr (hj, v) ∧
                child_of h' model name v ∧
                (∀ x, reach h child x → h' !! x = h !! x) ∧
                (∀ x, reach hj v x → h' !! x = hj !! x)
    end.
Proof.
  intros Hq HT (L & pre & post & HL & Hsplit & Hpre) Hrun.
  rewrite convert_is_traverse in Hrun.
  erewrite convert_loop_is_traverse in Hpre
    by (intros; apply convert_is_traverse).
  destruct (traverse_child_cases _ _ (convert_action_not_Stuck config) Hq
              _ _ _ _ _ _ _ _ _ _ _ _ _ HT HL Hsplit Hpre Hrun) as (a & Ha & Hcase).
  exists a. split; [done|]. destruct a; [done | | done].
  destruct Hcase as (hj & Hrec & ?). exists hj.
  by rewrite convert_is_traverse.
Qed.

Lemma observe_child fuel n model config h D name child hi ri h' :
  allocates_tree (_get_observe_wrapper config) →
  tree h n model D →
  observe_reaches fuel model config h name child hi ri →
  _insert_activation_observers (S fuel) model config h = Ret h' →
  ∃ a, observe_action config hi child = Ret a ∧
    match a with
    | Skip => False
    | Recurse =>
        ∃ hj, _insert_activation_observers fuel child config hi = Ret hj ∧
              child_of h' model name child ∧
              (∀ x, reach hj child x → h' !! x = hj !! x)
    | Replace =>
        ∃ hj v, _get_observe_wrapper config hi child = inr (hj, v) ∧
                child_of h' model name v ∧
                (∀ x, reach h child x → h' !! x = h !! x) ∧
                (∀ x, reach hj v x → h' !! x = hj !! x)
    end.
Proof.
  intros Hq HT (L & pre & post & HL & Hsplit & Hpre) Hrun.
  rewrite observe_is_traverse in Hrun.
  erewrite observe_loop_is_traverse in Hpre
    by (intros; apply observe_is_traverse).
  destruct (traverse_child_cases _ _ (observe_action_not_Stuck config) Hq
              _ _ _ _ _ _ _ _ _ _ _ _ _ HT HL Hsplit Hpre Hrun) as (a & Ha & Hcase).
  exists a. split; [done|]. destruct a; [| | done].
  - unfold observe_action in Ha.
    by destruct (_need_observe config hi child) as [?|[|]].
  - destruct Hcase as (hj & Hrec & ?). exists hj.
    by rewrite observe_is_traverse.
Qed.

(** The observer pass comes to every child of the node it is run on. *)
Lemma observe_reaches_child fuel n model config h D name child h' :
  allocates_tree (_get_observe_wrapper config) →
  tree h n model D → child_of h model name child →
  _insert_activation_observers (S fuel) model config h = Ret h' →
  ∃ hi ri, observe_reaches fuel model config h name child hi ri.
Proof.
  intros Hq HT (L & HL & Hget) Hrun.
  apply odict_get_Some_elem, list_elem_of_split in Hget as (pre & post & Hsplit).
  rewrite observe_is_traverse in Hrun.
  destruct (traverse_child _ _ (observe_action_not_Stuck config) Hq
              _ _ _ _ _ _ _ _ _ _ _ HT HL Hsplit Hrun)
    as (hi & ri & _ & _ & Hpre & _).
  exists hi, ri, L, pre, post. split_and!; [done..|].
  by erewrite observe_loop_is_traverse by (intros; apply observe_is_traverse).
Qed.

Lemma quantize_inv fuel self model inplace w m' w' :
  quantize fuel self model inplace w = Ret (m', w') →
  ∃ h0 cfg cfg' h1,
    (if inplace then h0 = layers w ∧ m' = model
     else deepcopy (layers w) model = inr (h0, m')) ∧
    configs w !! _config self = Some cfg ∧
    _specify cfg h0 m' = inr cfg' ∧
    _convert_to_quant_layers fuel m' cfg' h0 = Ret h1 ∧
    _insert_activation_observers fuel m' cfg' h1 = Ret (layers w') ∧
    configs w' = <[_config self := cfg']> (configs w).
Proof.
  unfold quantize. intros Hrun.
  apply res_bind_Ret in Hrun as ([h0 m0] & Hcopy & Hrun).
  apply res_bind_Ret in Hrun as (cfg & Hcfg & Hrun).
  apply res_bind_Ret in Hrun as (cfg' & Hsp%call_Ret & Hrun).
  apply res_bind_Ret in Hrun as (h1 & Hp1 & Hrun).
  apply res_bind_Ret in Hrun as (h2 & Hp2 & Hrun).
  injection Hrun as <- <-. simpl.
  exists h0, cfg, cfg', h1. split_and!; try done.
  - destruct inplace.
    + by injection Hcopy as <- <-.
    + by apply call_Ret.
  - unfold config_at in Hcfg. by destruct (configs w !! _config self) as [?|]; simplify_eq.
Qed.

(** The tree [quantize] works on. *)
Lemma working_tree (inplace : bool) w model n D h0 m' :
  copies_tree (deepcopy (Cfg:=Cfg)) →
  tree (layers w) n model D →
  (if inplace then h0 = layers w ∧ m' = model
   else deepcopy (layers w) model = inr (h0, m')) →
  layers w ⊆ h0 ∧
  ∃ n0 D0, tree h0 n0 m' D0 ∧ (inplace = false → D0 ## dom (layers w)).
Proof.
  intros Hcp HT Hcopy. destruct inplace.
  - destruct Hcopy as [-> ->]. split; [done|]. exists n, D. by split.
  - destruct (Hcp _ _ _ _ _ _ HT Hcopy) as (Hsub & n0 & D0 & HT0 & Hdisj).
    split; [done|]. exists n0, D0. by split.
Qed.

(** *** The calls of the two passes *)

Lemma convert_action_Recurse config h child :
  convert_action config h child = Ret Recurse ↔
  _is_quantifiable config h child = inr true ∧
  ∃ Lc, h !! child = Some Lc ∧ ltype Lc ∉ qat_layer_mappings config.
Proof.
  unfold convert_action, type, layer_at.
  destruct (_is_quantifiable config h child) as [e|[|]]; simpl.
  - split; [done | by intros [? _]].
  - destruct (h !! child) as [Lc|]; simpl.
    + case_bool_decide as Hin; simpl.
      * split; [eauto | done].
      * split; [done|]. intros (_ & Lc' & [= <-] & Hn). done.
    + split; [done | by intros (_ & ? & ? & _)].
  - split; [done | by intros [? _]].
Qed.

Lemma observe_action_Recurse config h child :
  observe_action config h child = Ret Recurse ↔
  _need_observe config h child = inr false.
Proof.
  unfold observe_action.
  destruct (_need_observe config h child) as [e|[|]]; simpl;
    split; intros Heq; first [done | discriminate Heq].
Qed.

Lemma convert_visits_calls config fuel model h f p hp :
  convert_visits config fuel model h f p hp ↔
  calls (convert_action config) (_get_qat_layer config) fuel model h f p hp.
Proof.
  split.
  - induction 1 as [|fuel model h name child hi ri Lc f p hp
                      (L & pre & post & HL & Hsplit & Hpre) Hyes HLc Hty _ IH];
      [constructor|].
    erewrite convert_loop_is_traverse in Hpre
      by (intros; apply convert_is_traverse).
    eapply calls_below; [done..| |done].
    apply convert_action_Recurse. eauto.
  - induction 1 as [|fuel model h L pre name child post hi ri f p hp
                      HL Hsplit Hpre Hcl _ IH]; [constructor|].
    apply convert_action_Recurse in Hcl as (Hyes & Lc & HLc & Hty).
    eapply convert_visits_below; [|done..].
    exists L, pre, post. split_and!; [done..|].
    by erewrite convert_loop_is_traverse by (intros; apply convert_is_traverse).
Qed.

Lemma observe_visits_calls config fuel model h f p hp :
  observe_visits config fuel model h f p hp ↔
  calls (observe_action config) (_get_observe_wrapper config) fuel model h f p hp.
Proof.
  split.
  - induction 1 as [|fuel model h name child hi ri f p hp
                      (L & pre & post & HL & Hsplit & Hpre) Hno _ IH];
      [constructor|].
    erewrite observe_loop_is_traverse in Hpre
      by (intros; apply observe_is_traverse).
    eapply calls_below; [done..| |done].
    by apply observe_action_Recurse.
  - induction 1 as [|fuel model h L pre name child post hi ri f p hp
                      HL Hsplit Hpre Hcl _ IH]; [constructor|].
    apply observe_action_Recurse in Hcl.
    eapply observe_visits_below; [|done..].
    exists L, pre, post. split_and!; [done..|].
    by erewrite observe_loop_is_traverse by (intros; apply observe_is_traverse).
Qed.

(** A call the replacement pass leads to is made on an untouched subtree
    of the tree; when the pass returns that call has returned, and what it
    left of its subtree is still there. *)
Lemma convert_visit fuel n model config h D f p hp h' :
  allocates_tree (_get_qat_layer config) →
  tree h n model D →
  convert_visits config fuel model h f p hp →
  _convert_to_quant_layers fuel model config h = Ret h' →
  ∃ np Dp hp',
    tree hp np p Dp ∧ Dp ⊆ D ∧ (∀ x, x ∈ Dp → hp !! x = h !! x) ∧
    _convert_to_quant_layers f p config hp = Ret hp' ∧
    (∀ x, reach hp p x → h' !! x = hp' !! x).
Proof.
  intros Hq HT Hvis%convert_visits_calls Hrun.
  rewrite convert_is_traverse in Hrun.
  destruct (calls_tree _ _ (convert_action_not_Stuck config) Hq
              _ _ _ _ _ _ _ _ HT Hvis) as (np & Dp & HTp & HDp & _ & Hsame).
  destruct (calls_stable _ _ (convert_action_not_Stuck config) Hq
              _ _ _ _ _ _ _ _ _ HT Hvis Hrun) as (hp' & Hrunp & Hstable).
  exists np, Dp, hp'. rewrite convert_is_traverse. done.
Qed.

Lemma observe_visit fuel n model config h D f p hp h' :
  allocates_tree (_get_observe_wrapper config) →
  tree h n model D →
  observe_visits config fuel model h f p hp →
  _insert_activation_observers fuel model config h = Ret h' →
  ∃ np Dp hp',
    tree hp np p Dp ∧ Dp ⊆ D ∧ (∀ x, x ∈ Dp → hp !! x = h !! x) ∧
    _insert_activation_observers f p config hp = Ret hp' ∧
    (∀ x, reach hp p x → h' !! x = hp' !! x).
Proof.
  intros Hq HT Hvis%observe_visits_calls Hrun.
  rewrite observe_is_traverse in Hrun.
  destruct (calls_tree _ _ (observe_action_not_Stuck config) Hq
              _ _ _ _ _ _ _ _ HT Hvis) as (np & Dp & HTp & HDp & _ & Hsame).
  destruct (calls_stable _ _ (observe_action_not_Stuck config) Hq
              _ _ _ _ _ _ _ _ _ HT Hvis Hrun) as (hp' & Hrunp & Hstable).
  exists np, Dp, hp'. rewrite observe_is_traverse. done.
Qed.

(** An object of the tree is one the observer pass is called on, or one
    it leaves as it is. *)
Lemma observe_visited_or_untouched fuel n model config h D h' x :
  allocates_tree (_get_observe_wrapper config) →
  tree h n model D →
  _insert_activation_observers fuel model config h = Ret h' → x ∈ D →
  (∃ f hq, observe_visits config fuel model h (S f) x hq) ∨ h' !! x = h !! x.
Proof.
  intros Hq HT Hrun Hx. rewrite observe_is_traverse in Hrun.
  destruct (called_or_untouched _ _ (observe_action_not_Stuck config) Hq
              _ _ _ _ _ _ _ HT Hrun Hx) as [(f & hq & Hcalls)|Heq]; [|by right].
  left. exists f, hq. by apply observe_visits_calls.
Qed.

(** A pass raises exactly when one of its calls comes to a child at which
    the query or the constructor raises, and it raises that exception. *)
Lemma convert_Raise_iff config fuel model h e :
  _convert_to_quant_layers fuel model config h = Raise e ↔
  convert_raises_at config fuel model h e.
Proof.
  rewrite convert_is_traverse. split.
  - intros Hrun. apply traverse_Raise_inv in Hrun
      as (f & p & hp & L & pre & name & child & post & hi & ri
          & Hcalls & HL & Hsplit & Hpre & Hcause).
    exists f, p, hp, name, child, hi, ri. split_and!.
    + by apply convert_visits_calls.
    + exists L, pre, post. split_and!; [done..|].
      by erewrite convert_loop_is_traverse
        by (intros; apply convert_is_traverse).
    + destruct Hcause as [Hcl|[Hcl Hmk]].
      * left. by apply convert_action_Raise.
      * right. apply convert_action_Replace in Hcl as (Hyes & Lc & HLc & Hin).
        eauto.
  - intros (f & p & hp & name & child & hi & ri & Hvis
            & (L & pre & post & HL & Hsplit & Hpre) & Hcause).
    apply convert_visits_calls in Hvis.
    eapply calls_raise; [done|].
    erewrite convert_loop_is_traverse in Hpre
      by (intros; apply convert_is_traverse).
    eapply traverse_Raise_at_child; [done..|].
    unfold convert_action, type, layer_at.
    destruct Hcause as [->|(Lc & -> & -> & Hin & Hmk)]; simpl; [by left|].
    right. by rewrite bool_decide_false by (intros Hn; by apply Hn).
Qed.

Lemma observe_Raise_iff config fuel model h e :
  _insert_activation_observers fuel model config h = Raise e ↔
  observe_raises_at config fuel model h e.
Proof.
  rewrite observe_is_traverse. split.
  - intros Hrun. apply traverse_Raise_inv in Hrun
      as (f & p & hp & L & pre & name & child & post & hi & ri
          & Hcalls & HL & Hsplit & Hpre & Hcause).
    exists f, p, hp, name, child, hi, ri. split_and!.
    + by apply observe_visits_calls.
    + exists L, pre, post. split_and!; [done..|].
      by erewrite observe_loop_is_traverse
        by (intros; apply observe_is_traverse).
    + destruct Hcause as [Hcl|[Hcl Hmk]].
      * left. by apply observe_action_Raise.
      * right. by apply observe_action_Replace in Hcl.
  - intros (f & p & hp & name & child & hi & ri & Hvis
            & (L & pre & post & HL & Hsplit & Hpre) & Hcause).
    apply observe_visits_calls in Hvis.
    eapply calls_raise; [done|].
    erewrite observe_loop_is_traverse in Hpre
      by (intros; apply observe_is_traverse).
    eapply traverse_Raise_at_child; [done..|].
    unfold observe_action.
    destruct Hcause as [->|[-> Hmk]]; simpl; [by left | by right].
Qed.
End rewriter_lemmas.

(** ** The concrete collaborators keep to their contracts *)

Section demo_facts.
Import Demo.
Implicit Types (h : heap Kind) (D : gset ref).

Lemma demo_get_qat_layer_ok c : allocates_tree (get_qat_layer c).
Proof.
  intros h r n D h' r' HT. unfold get_qat_layer.
  destruct (h !! r) as [L|]; [|done]. case_bool_decide; [|done].
  intros [= <- <-]. pose proof (is_fresh (dom h)) as Hfresh.
  split.
  - apply insert_subseteq. by apply not_elem_of_dom.
  - exists 1, ({[fresh (dom h)]} ∪ ∅). split.
    + simpl. eexists _, ∅. rewrite lookup_insert_eq.
      split_and!; [done | constructor | constructor | set_solver | done].
    + rewrite dom_insert_L. set_solver.
Qed.

Lemma demo_get_observe_wrapper_ok c : allocates_tree (get_observe_wrapper c).
Proof.
  intros h r n D h' r' HT. unfold get_observe_wrapper.
  intros [= <- <-]. pose proof (is_fresh (dom h)) as Hfresh.
  pose proof (tree_dom _ _ _ _ HT) as Hdom.
  split.
  - apply insert_subseteq. by apply not_elem_of_dom.
  - exists (S n), ({[fresh (dom h)]} ∪ (D ∪ ∅)). split.
    + simpl. eexists _, (D ∪ ∅). rewrite lookup_insert_eq.
      split_and!; [done | | | set_solver | done]; simpl.
      * apply NoDup_singleton.
      * constructor; [|constructor|set_solver].
        eapply tree_agree; [done|]. intros x Hx.
        rewrite lookup_insert_ne; [done|]. set_solver.
    + rewrite dom_insert_L. set_solver.
Qed.

Lemma above_gt {A} (m : gmap ref A) k : k ∈ dom m → (k < above m)%positive.
Proof.
  intros Hk. unfold above.
  assert (Pos.to_nat k ≤ max_list (Pos.to_nat <$> elements (dom m))).
  { apply max_list_elem_of_le, list_elem_of_fmap. exists k.
    split; [done|]. by apply elem_of_elements. }
  lia.
Qed.

#[local] Instance pos_add_inj (N : positive) : Inj (=) (=) (Pos.add N).
Proof. intros x y Heq. lia. Qed.

Lemma copy_lookup h N (x : ref) :
  N = above h →
  (h ∪ kmap (Pos.add N) (shift_layer N <$> h)) !! (N + x)%positive
    = shift_layer N <$> h !! x.
Proof.
  intros ->. rewrite lookup_union_r.
  - rewrite (lookup_kmap (Pos.add (above h))). by rewrite lookup_fmap.
  - apply not_elem_of_dom. intros Hin%above_gt. lia.
Qed.

Lemma forest_shift (T T' : ref → gset ref → Prop) N cs D :
  forest T cs D →
  (∀ c Dc, T c Dc → T' (N + c)%positive (set_map (Pos.add N) Dc)) →
  forest T' (Pos.add N <$> cs) (set_map (Pos.add N) D).
Proof.
  induction 1 as [|c cs D1 D2 Hc Hcs IH Hdisj]; intros Hshift.
  - rewrite set_map_empty. constructor.
  - rewrite fmap_cons, set_map_union_L. constructor; [by apply Hshift | by apply IH |].
    intros x (y1 & -> & Hy1)%elem_of_map (y2 & Heq & Hy2)%elem_of_map.
    apply (inj (Pos.add N)) in Heq as ->. set_solver.
Qed.

Lemma demo_copy_layers_ok : copies_tree copy_layers.
Proof.
  intros h r n D h' r' HT. unfold copy_layers.
  destruct (h !! r) as [Lr|]; [|done]. intros [= <- <-].
  set (N := above h). set (h' := h ∪ kmap (Pos.add N) (shift_layer N <$> h)).
  split; [apply map_union_subseteq_l|].
  exists n, (set_map (Pos.add N) D). split.
  - clear Lr. revert r D HT. induction n as [|n IH]; intros r D HT; [done|].
    simpl in HT. destruct HT as (L & D' & HL & Hnd & HF & Hr & ->).
    simpl. exists (shift_layer N L), (set_map (Pos.add N) D').
    split_and!.
    + etrans; [by apply (copy_lookup h N r)|]. by rewrite HL.
    + simpl. rewrite <-list_fmap_compose.
      by rewrite (list_fmap_ext _ fst (_sub_layers L)) by by intros ? [].
    + simpl. rewrite <-list_fmap_compose.
      rewrite (list_fmap_ext _ (Pos.add N ∘ snd) (_sub_layers L)) by by intros ? [].
      rewrite list_fmap_compose. eapply forest_shift; [done|]. apply IH.
    + intros (y & Heq & Hy)%elem_of_map.
      apply (inj (Pos.add N)) in Heq as ->. done.
    + by rewrite set_map_union_L, set_map_singleton_L.
  - intros x (y & -> & Hy)%elem_of_map Hin%above_gt. fold N in Hin. lia.
Qed.

Lemma demo_copy_config_ok : copies_config copy_config.
Proof.
  intros cs c cs' c'. unfold copy_config.
  destruct (cs !! c) as [v|]; [|done]. intros [= <- <-].
  exists v. split_and!; [done | apply is_fresh | done].
Qed.

Lemma demo_collaborators_ok :
  collaborators_ok (E:=Exn) (LType:=Kind) (Cfg:=Cfg).
Proof.
  split_and!.
  - apply demo_get_qat_layer_ok.
  - apply demo_get_observe_wrapper_ok.
  - apply demo_copy_layers_ok.
  - apply demo_copy_config_ok.
Qed.

(** The concrete model is a tree. *)
Lemma demo_model_tree :
  tree model_heap 3 1%positive (list_to_set (Pos.of_nat <$> seq 1 6)).
Proof. apply check_tree_sound. by vm_compute. Qed.

Lemma demo_converted_heap :
  _convert_to_quant_layers 3 1%positive qconfig model_heap = Ret converted_heap.
Proof. by vm_compute. Qed.

Lemma demo_converted_tree :
  tree converted_heap 3 1%positive
    (list_to_set [1; 7; 3; 4; 5; 8]%positive).
Proof. apply check_tree_sound. by vm_compute. Qed.

Lemma demo_nothing_quantifiable (c : Cfg) (h : heap Kind) r :
  quantifiable c = [] → is_Some (h !! r) → _is_quantifiable c h r = inr false.
Proof.
  intros Hc [L HL]. simpl. unfold kind_in. rewrite HL, Hc.
  by rewrite bool_decide_false by apply not_elem_of_nil.
Qed.

Lemma demo_nothing_observed (c : Cfg) (h : heap Kind) r :
  observed c = [] → is_Some (h !! r) → _need_observe c h r = inr false.
Proof.
  intros Hc [L HL]. simpl. unfold kind_in. rewrite HL, Hc.
  rewrite bool_decide_false by apply not_elem_of_nil.
  by rewrite andb_false_r.
Qed.

Lemma unregistered_collaborators_ok :
  collaborators_ok (E:=Exn) (LType:=Kind) (Cfg:=Cfg)
    (QuantConfig0:=unregistered_config).
Proof.
  split_and!.
  - intros c h r n D h' r' _ Hmk. discriminate Hmk.
  - apply demo_get_observe_wrapper_ok.
  - apply demo_copy_layers_ok.
  - apply demo_copy_config_ok.
Qed.
End demo_facts.

(* ================================================================== *)
(** * The properties of the rewriter *)

Section replacement_pass.
Context {E LType Cfg : Type} `{!EqDecision LType}.
Context `{!QuantConfig E LType Cfg}.
Local Abbreviation heap := (gmap ref (Layer LType)).
Implicit Types (h : heap) (config : Cfg).

(** C1.  When the replacement pass, run on a node of a tree, comes to a
    child for which [_is_quantifiable] answers false, the iteration for
    that child leaves the store and the staged replacements as they are,
    whatever a recursive call would have done; when the pass returns,
    the child is still bound to its name and every object of its
    subtree is as it was before the pass, eligible descendants
    included. *)
Theorem ineligible_child_skipped fuel n model config h D name child hi ri h' :
  allocates_tree (_get_qat_layer config) →
  tree h n model D →
  convert_reaches fuel model config h name child hi ri →
  _is_quantifiable config hi child = inr false →
  _convert_to_quant_layers (S fuel) model config h = Ret h' →
  (∀ self_call,
     convert_loop self_call config [(name, child)] ri hi = Ret (hi, ri)) ∧
  child_of h' model name child ∧
  (∀ x, reach h child x → h' !! x = h !! x).
Proof.
  intros Hq HT Hreach Hno Hrun. split.
  { intros sc. simpl. by rewrite Hno. }
  destruct (convert_child _ _ _ _ _ _ _ _ _ _ _ Hq HT Hreach Hrun)
    as (a & Ha & Hcase).
  unfold convert_action in Ha. rewrite Hno in Ha. simpl in Ha.
  injection Ha as <-. done.
Qed.

(** C3.  When the replacement pass comes to a child for which
    [_is_quantifiable] answers true: if the class of the child is not in
    [qat_layer_mappings], the iteration is the recursive call on the
    child and stages nothing, and on return the child is still bound to
    its name, its subtree being as the recursive call left it; if the
    class is in [qat_layer_mappings], the iteration stages
    [_get_qat_layer(child)] under the child's name without any recursive
    call, and on return that name is bound to the replacement, the
    subtree of the child is as before the pass and the replacement is as
    it was built. *)
Theorem eligible_child_descended_or_replaced
    fuel n model config h D name child hi ri Lc h' :
  allocates_tree (_get_qat_layer config) →
  tree h n model D →
  convert_reaches fuel model config h name child hi ri →
  _is_quantifiable config hi child = inr true →
  hi !! child = Some Lc →
  _convert_to_quant_layers (S fuel) model config h = Ret h' →
  (ltype Lc ∉ qat_layer_mappings config →
     (∀ self_call,
        convert_loop self_call config [(name, child)] ri hi =
          hj ← self_call child hi; mret (hj, ri)) ∧
     ∃ hj, _convert_to_quant_layers fuel child config hi = Ret hj ∧
           child_of h' model name child ∧
           (∀ x, reach hj child x → h' !! x = hj !! x)) ∧
  (ltype Lc ∈ qat_layer_mappings config →
     ∃ hj v, _get_qat_layer config hi child = inr (hj, v) ∧
       (∀ self_call,
          convert_loop self_call config [(name, child)] ri hi =
            Ret (hj, odict_set name v ri)) ∧
       child_of h' model name v ∧
       (∀ x, reach h child x → h' !! x = h !! x) ∧
       (∀ x, reach hj v x → h' !! x = hj !! x)).
Proof.
  intros Hq HT Hreach Hyes HLc Hrun.
  destruct (convert_child _ _ _ _ _ _ _ _ _ _ _ Hq HT Hreach Hrun)
    as (a & Ha & Hcase).
  unfold convert_action, type, layer_at in Ha.
  rewrite Hyes, HLc in Ha. simpl in Ha.
  split; intros Hty.
  - rewrite bool_decide_true in Ha by done. injection Ha as <-.
    split; [|done]. intros sc. simpl. unfold type, layer_at.
    rewrite Hyes, HLc. simpl. rewrite bool_decide_true by done.
    by destruct (sc child hi).
  - rewrite bool_decide_false in Ha by (intros Hn; by apply Hn).
    injection Ha as <-. destruct Hcase as (hj & v & Hmk & ?).
    exists hj, v. split; [done|]. split; [|done].
    intros sc. simpl. unfold type, layer_at. rewrite Hyes, HLc. simpl.
    rewrite bool_decide_false by (intros Hn; by apply Hn).
    by rewrite Hmk.
Qed.
End replacement_pass.

Section observer_pass.
Context {E LType Cfg : Type} `{!EqDecision LType}.
Context `{!QuantConfig E LType Cfg}.
Local Abbreviation heap := (gmap ref (Layer LType)).
Implicit Types (h : heap) (config : Cfg).

(** C5.  When the observer pass comes to a child, [_need_observe]
    answers [o]: if [o] is true the iteration stages
    [_get_observe_wrapper(child)] under the child's name without any
    recursive call, and on return that name is bound to the wrapper, the
    subtree of the child is as before the pass and the wrapper is as it
    was built; if [o] is false the iteration is the recursive call on
    the child and stages nothing, and on return the child is still bound
    to its name. *)
Theorem observed_child_wrapped_or_descended
    fuel n model config h D name child hi ri h' :
  allocates_tree (_get_observe_wrapper config) →
  tree h n model D →
  observe_reaches fuel model config h name child hi ri →
  _insert_activation_observers (S fuel) model config h = Ret h' →
  ∃ o : bool, _need_observe config hi child = inr o ∧
    if o then
      ∃ hj v, _get_observe_wrapper config hi child = inr (hj, v) ∧
        (∀ self_call,
           observe_loop self_call config [(name, child)] ri hi =
             Ret (hj, odict_set name v ri)) ∧
        child_of h' model name v ∧
        (∀ x, reach h child x → h' !! x = h !! x) ∧
        (∀ x, reach hj v x → h' !! x = hj !! x)
    else
      (∀ self_call,
         observe_loop self_call config [(name, child)] ri hi =
           hj ← self_call child hi; mret (hj, ri)) ∧
      ∃ hj, _insert_activation_observers fuel child config hi = Ret hj ∧
            child_of h' model name child ∧
            (∀ x, reach hj child x → h' !! x = hj !! x).
Proof.
  intros Hq HT Hreach Hrun.
  destruct (observe_child _ _ _ _ _ _ _ _ _ _ _ Hq HT Hreach Hrun)
    as (a & Ha & Hcase).
  unfold observe_action in Ha.
  destruct (_need_observe config hi child) as [e|o] eqn:Ho; [done|].
  exists o. split; [done|]. destruct o; simpl in Ha; injection Ha as <-.
  - destruct Hcase as (hj & v & Hmk & ?). exists hj, v.
    split; [done|]. split; [|done].
    intros sc. simpl. by rewrite Ho, Hmk.
  - split; [|done]. intros sc. simpl. rewrite Ho. simpl.
    by destruct (sc child hi).
Qed.
End observer_pass.

Section both_passes.
Context {E LType Cfg : Type} `{!EqDecision LType}.
Context `{!QuantConfig E LType Cfg}.
Local Abbreviation heap := (gmap ref (Layer LType)).
Implicit Types (h : heap) (config : Cfg).

(** C4.  In both passes, run on a node [model] of a tree: the pass is
    the loop over the children the node had before the pass, followed by
    the installation of what the loop staged; and at every point of the
    loop the object [model] is still as it was before the pass, so that
    nothing is installed before the loop is over. *)
Theorem replacements_installed_after_loop fuel n model config h D L :
  allocates_tree (_get_qat_layer config) →
  allocates_tree (_get_observe_wrapper config) →
  tree h n model D → h !! model = Some L →
  (∀ h', _convert_to_quant_layers (S fuel) model config h = Ret h' →
     ∃ h1 replaced,
       convert_loop (λ c, _convert_to_quant_layers fuel c config) config
         (_sub_layers L) [] h = Ret (h1, replaced) ∧
       install (E:=E) replaced model h1 = Ret h') ∧
  (∀ pre post hi ri, _sub_layers L = pre ++ post →
     convert_loop (λ c, _convert_to_quant_layers fuel c config) config
       pre [] h = Ret (hi, ri) →
     hi !! model = Some L) ∧
  (∀ h', _insert_activation_observers (S fuel) model config h = Ret h' →
     ∃ h1 replaced,
       observe_loop (λ c, _insert_activation_observers fuel c config) config
         (_sub_layers L) [] h = Ret (h1, replaced) ∧
       install (E:=E) replaced model h1 = Ret h') ∧
  (∀ pre post hi ri, _sub_layers L = pre ++ post →
     observe_loop (λ c, _insert_activation_observers fuel c config) config
       pre [] h = Ret (hi, ri) →
     hi !! model = Some L).
Proof.
  intros Hq Ho HT HL. split_and!.
  - intros h' Hrun. simpl in Hrun. unfold named_children, layer_at in Hrun.
    rewrite HL in Hrun. simpl in Hrun.
    apply res_bind_Ret in Hrun as ([h1 replaced] & Hloop & Hinst). eauto.
  - intros pre post hi ri Hsplit Hpre.
    erewrite convert_loop_is_traverse in Hpre
      by (intros; apply convert_is_traverse).
    eapply traverse_prefix;
      [apply convert_action_not_Stuck | exact Hq | done..].
  - intros h' Hrun. simpl in Hrun. unfold named_children, layer_at in Hrun.
    rewrite HL in Hrun. simpl in Hrun.
    apply res_bind_Ret in Hrun as ([h1 replaced] & Hloop & Hinst). eauto.
  - intros pre post hi ri Hsplit Hpre.
    erewrite observe_loop_is_traverse in Hpre
      by (intros; apply observe_is_traverse).
    eapply traverse_prefix;
      [apply observe_action_not_Stuck | exact Ho | done..].
Qed.
End both_passes.


Section rewriter.
Context {E LType Cfg : Type} `{!EqDecision LType}.
Context `{!QuantConfig E LType Cfg} `{!DeepCopy E LType Cfg}.
Local Abbreviation heap := (gmap ref (Layer LType)).
Implicit Types (h : heap) (config : Cfg) (w : world LType Cfg).

Lemma evolves_names_kept D h h' : evolves D h h' → names_kept h h'.
Proof.
  intros Hev x L HL. destruct (Hev _ _ HL) as (L' & ? & _ & ? & _). eauto.
Qed.

Lemma names_kept_trans h1 h2 h3 :
  names_kept h1 h2 → names_kept h2 h3 → names_kept h1 h3.
Proof.
  intros H12 H23 x L HL.
  destruct (H12 _ _ HL) as (L2 & HL2 & ?).
  destruct (H23 _ _ HL2) as (L3 & HL3 & ?).
  exists L3. split; [done | congruence].
Qed.

(** C10.  Both passes, run on a tree, keep the names of the children of
    every object of the store, and what their loops stage is staged
    under names of children of the node; hence, in the store [quantize]
    works on (the caller's store, or the store after the deep copy),
    every object keeps exactly its names of children. *)
Theorem child_names_preserved :
  collaborators_ok (E:=E) (LType:=LType) (Cfg:=Cfg) →
  (∀ fuel n model config h D h',
     tree h n model D →
     _convert_to_quant_layers fuel model config h = Ret h' →
     names_kept h h') ∧
  (∀ fuel n model config h D h',
     tree h n model D →
     _insert_activation_observers fuel model config h = Ret h' →
     names_kept h h') ∧
  (∀ fuel n model config h D L h1 replaced,
     tree h n model D → h !! model = Some L →
     convert_loop (λ c, _convert_to_quant_layers fuel c config) config
       (_sub_layers L) [] h = Ret (h1, replaced) →
     ∀ k, k ∈ replaced.*1 → k ∈ (_sub_layers L).*1) ∧
  (∀ fuel n model config h D L h1 replaced,
     tree h n model D → h !! model = Some L →
     observe_loop (λ c, _insert_activation_observers fuel c config) config
       (_sub_layers L) [] h = Ret (h1, replaced) →
     ∀ k, k ∈ replaced.*1 → k ∈ (_sub_layers L).*1) ∧
  (∀ fuel self model inplace w n D m' w',
     tree (layers w) n model D →
     quantize fuel self model inplace w = Ret (m', w') →
     ∃ h0, (if inplace then h0 = layers w
            else deepcopy (layers w) model = inr (h0, m')) ∧
           names_kept h0 (layers w')).
Proof.
  intros (Hq & Ho & Hcp & _). split_and!.
  - intros fuel n model config h D h' HT Hrun.
    destruct (convert_ret _ _ _ _ _ _ _ (Hq config) HT Hrun) as [Hev _].
    by eapply evolves_names_kept.
  - intros fuel n model config h D h' HT Hrun.
    destruct (observe_ret _ _ _ _ _ _ _ (Ho config) HT Hrun) as [Hev _].
    by eapply evolves_names_kept.
  - intros fuel n model config h D L h1 replaced HT HL Hloop.
    erewrite convert_loop_is_traverse in Hloop
      by (intros; apply convert_is_traverse).
    eapply traverse_prefix;
      [apply convert_action_not_Stuck | exact (Hq config) | done | done | | done].
    by rewrite app_nil_r.
  - intros fuel n model config h D L h1 replaced HT HL Hloop.
    erewrite observe_loop_is_traverse in Hloop
      by (intros; apply observe_is_traverse).
    eapply traverse_prefix;
      [apply observe_action_not_Stuck | exact (Ho config) | done | done | | done].
    by rewrite app_nil_r.
  - intros fuel self model inplace w n D m' w' HT Hrun.
    apply quantize_inv in Hrun
      as (h0 & cfg & cfg' & h1 & Hcopy & _ & _ & Hp1 & Hp2 & _).
    destruct (working_tree _ _ _ _ _ _ _ Hcp HT Hcopy)
      as (_ & n0 & D0 & HT0 & _).
    destruct (convert_ret _ _ _ _ _ _ _ (Hq cfg') HT0 Hp1)
      as (Hev1 & n1 & D1 & HT1 & _).
    destruct (observe_ret _ _ _ _ _ _ _ (Ho cfg') HT1 Hp2) as (Hev2 & _).
    exists h0. split.
    + destruct inplace; [by destruct Hcopy | done].
    + eapply names_kept_trans; by eapply evolves_names_kept.
Qed.

(** C7.  With [inplace=False], when [quantize] returns, the model it
    returns is an object that did not exist before the call, and every
    object that existed before the call, the caller's model and its
    descendants included, is exactly as it was: same class, same names,
    same children. *)
Theorem inplace_false_leaves_original fuel self model w n D m' w' :
  collaborators_ok (E:=E) (LType:=LType) (Cfg:=Cfg) →
  tree (layers w) n model D →
  quantize fuel self model false w = Ret (m', w') →
  m' ∉ dom (layers w) ∧
  (∀ x L, layers w !! x = Some L → layers w' !! x = Some L).
Proof.
  intros (Hq & Ho & Hcp & _) HT Hrun.
  apply quantize_inv in Hrun
    as (h0 & cfg & cfg' & h1 & Hcopy & _ & _ & Hp1 & Hp2 & _).
  destruct (working_tree false _ _ _ _ _ _ Hcp HT Hcopy)
    as (Hsub & n0 & D0 & HT0 & Hdisj).
  specialize (Hdisj eq_refl).
  destruct (convert_ret _ _ _ _ _ _ _ (Hq cfg') HT0 Hp1)
    as (Hev1 & n1 & D1 & HT1 & HD1).
  destruct (observe_ret _ _ _ _ _ _ _ (Ho cfg') HT1 Hp2) as (Hev2 & _).
  split.
  - apply tree_root in HT0 as [Hin _]. set_solver.
  - intros x L HL.
    assert (x ∈ dom (layers w)) as Hx by (apply elem_of_dom; eauto).
    assert (h0 !! x = Some L) as HL0 by by eapply lookup_weaken.
    assert (x ∈ dom h0) as Hx0 by (apply elem_of_dom; eauto).
    destruct (Hev1 _ _ HL0) as (L1 & HL1 & _ & _ & Heq1).
    rewrite Heq1 in HL1 by set_solver.
    destruct (Hev2 _ _ HL1) as (L2 & HL2 & _ & _ & Heq2).
    rewrite Heq2 in HL2 by set_solver. done.
Qed.

(** C8.  [__init__] stores a new configuration object, distinct from the
    caller's and from every object the caller can see, that holds the
    state the caller's object had; it changes nothing else.  Whatever
    state [v] is later written into the caller's object, in whatever
    store, [quantize] on the rewriter gives the same outcome, the
    caller's object being the only difference in the resulting store;
    and [quantize] itself changes no configuration object but the
    rewriter's own. *)
Theorem config_copy_isolated (config : ref) w self w' :
  copies_config (deepcopy_config (LType:=LType)) →
  __init__ config w = Ret (self, w') →
  (_config self ∉ dom (configs w)) ∧ _config self ≠ config ∧
  configs w' !! _config self = configs w !! config ∧
  (∀ c, c ∈ dom (configs w) → configs w' !! c = configs w !! c) ∧
  layers w' = layers w ∧
  (∀ hl cs v fuel model inplace,
     quantize fuel self model inplace (mkWorld hl (<[config := v]> cs)) =
       match quantize fuel self model inplace (mkWorld hl cs) with
       | Ret (m, w2) =>
           Ret (m, mkWorld (layers w2) (<[config := v]> (configs w2)))
       | Raise e => Raise e
       | Stuck => Stuck
       end) ∧
  (∀ fuel model inplace w1 m w2,
     quantize fuel self model inplace w1 = Ret (m, w2) →
     ∀ c, c ≠ _config self → configs w2 !! c = configs w1 !! c).
Proof.
  intros Hcp Hinit. unfold __init__ in Hinit.
  apply res_bind_Ret in Hinit as ([cs c'] & Hcopy%call_Ret & Hinit).
  injection Hinit as <- <-. simpl.
  destruct (Hcp _ _ _ _ Hcopy) as (v0 & Hv0 & Hfresh & ->).
  assert (c' ≠ config) as Hne.
  { intros ->. apply Hfresh, elem_of_dom. eauto. }
  split_and!; try done.
  - by rewrite lookup_insert_eq.
  - intros c Hc. rewrite lookup_insert_ne; [done|]. by intros ->.
  - intros hl cs v fuel model inplace. unfold quantize, config_at. simpl.
    rewrite lookup_insert_ne by done.
    destruct (if inplace then mret (hl, model) else call (deepcopy hl model))
      as [[h0 m0]| |]; simpl; [|done|done].
    destruct (cs !! c') as [cfg|]; simpl; [|done].
    destruct (call (_specify cfg h0 m0)) as [cfg'| |]; simpl; [|done|done].
    destruct (_convert_to_quant_layers fuel m0 cfg' h0) as [h1| |]; simpl;
      [|done|done].
    destruct (_insert_activation_observers fuel m0 cfg' h1) as [h2| |]; simpl;
      [|done|done].
    unfold mret, res_mret. do 3 f_equal. by apply insert_insert_ne.
  - intros fuel model inplace w1 m w2 Hrun c Hc.
    apply quantize_inv in Hrun as (? & ? & ? & ? & _ & _ & _ & _ & _ & ->).
    by rewrite lookup_insert_ne.
Qed.

Lemma raised_convert config e :
  raised (convert_action config) (_get_qat_layer config) e →
  raised_by_collaborator e.
Proof.
  intros [(h & r & Hr)|(h & r & Hr)].
  - apply convert_action_Raise in Hr. right. right. left. eauto.
  - right. right. right. left. eauto.
Qed.

Lemma raised_observe config e :
  raised (observe_action config) (_get_observe_wrapper config) e →
  raised_by_collaborator e.
Proof.
  intros [(h & r & Hr)|(h & r & Hr)].
  - apply observe_action_Raise in Hr. do 4 right. left. eauto.
  - do 5 right. eauto.
Qed.

(** C9.  [quantize] raises the exception [e] exactly when a call it
    makes to a collaborator raises [e]: the deep copy, [_specify], or a
    query or a constructor at a child that a call of one of the passes
    has come to.  So an exception of a collaborator always reaches the
    caller, as it is, and [quantize] raises nothing of its own.  And on a
    tree, with a configuration object at hand, [quantize] has for every
    sufficient recursion budget one and the same outcome: it returns the
    working model (the argument itself when [inplace], the deep copy
    otherwise) or raises such an exception; it is never stuck. *)
Theorem errors_come_from_collaborators self model inplace w n D :
  collaborators_ok (E:=E) (LType:=LType) (Cfg:=Cfg) →
  tree (layers w) n model D →
  is_Some (configs w !! _config self) →
  (∀ fuel e,
     quantize fuel self model inplace w = Raise e ↔
     collaborator_raises fuel self model inplace w e) ∧
  ∃ N out,
    (∀ fuel, N ≤ fuel → quantize fuel self model inplace w = out) ∧
    match out with
    | Ret (m', w') =>
        if inplace then m' = model
        else ∃ h0, deepcopy (layers w) model = inr (h0, m')
    | Raise e => raised_by_collaborator e
    | Stuck => False
    end.
Proof.
  intros Hok HT Hsome. split.
  { clear. intros fuel e. unfold quantize, collaborator_raises, config_at.
    split.
    - intros Hrun.
      destruct inplace; simpl in Hrun.
      + right. exists (layers w), model.
        destruct (configs w !! _config self) as [cfg|]; simpl in Hrun; [|done].
        exists cfg. split; [done|]. split; [done|].
        destruct (_specify cfg (layers w) model) as [e'|cfg']; simpl in Hrun.
        { injection Hrun as ->. by left. }
        right. exists cfg'. split; [done|].
        destruct (_convert_to_quant_layers fuel model cfg' (layers w))
          as [h1|e'|] eqn:Hp1; simpl in Hrun; [| |done].
        * right. exists h1. split; [done|]. apply observe_Raise_iff.
          destruct (_insert_activation_observers fuel model cfg' h1);
            simpl in Hrun; [done | congruence | done].
        * injection Hrun as ->. left. by apply convert_Raise_iff.
      + destruct (deepcopy (layers w) model) as [e'|[h0 m']] eqn:Hdc;
          simpl in Hrun.
        { injection Hrun as ->. by left. }
        right. exists h0, m'.
        destruct (configs w !! _config self) as [cfg|]; simpl in Hrun; [|done].
        exists cfg. split; [done|]. split; [done|].
        destruct (_specify cfg h0 m') as [e'|cfg']; simpl in Hrun.
        { injection Hrun as ->. by left. }
        right. exists cfg'. split; [done|].
        destruct (_convert_to_quant_layers fuel m' cfg' h0)
          as [h1|e'|] eqn:Hp1; simpl in Hrun; [| |done].
        * right. exists h1. split; [done|]. apply observe_Raise_iff.
          destruct (_insert_activation_observers fuel m' cfg' h1);
            simpl in Hrun; [done | congruence | done].
        * injection Hrun as ->. left. by apply convert_Raise_iff.
    - intros [[-> Hdc]|(h0 & m' & cfg & Hcopy & Hcfg & Hcause)].
      { by rewrite Hdc. }
      assert ((if inplace then mret (layers w, model)
               else call (deepcopy (layers w) model)) = Ret (h0, m')) as ->.
      { destruct inplace; [by destruct Hcopy as [-> ->] | by rewrite Hcopy]. }
      simpl. rewrite Hcfg. simpl.
      destruct Hcause as [->|(cfg' & -> & Hcause)]; simpl; [done|].
      destruct Hcause as [Hp1%convert_Raise_iff|(h1 & Hp1 & Hp2%observe_Raise_iff)].
      + by rewrite Hp1.
      + rewrite Hp1. simpl. by rewrite Hp2. }
  revert Hok HT Hsome.

  intros (Hq & Ho & Hcp & _) HT [cfg Hcfg].
  assert (∀ h0 m' n0 D0, tree h0 n0 m' D0 →
    ∃ N out,
      (∀ fuel, N ≤ fuel →
         (cfg ← config_at (configs w) (_config self);
          cfg' ← call (_specify cfg h0 m');
          h1 ← _convert_to_quant_layers fuel m' cfg' h0;
          h2 ← _insert_activation_observers fuel m' cfg' h1;
          mret (m', mkWorld h2 (<[_config self := cfg']> (configs w)))) = out) ∧
      match out with
      | Ret (m'', _) => m'' = m'
      | Raise e => raised_by_collaborator e
      | Stuck => False
      end) as Hmain.
  { intros h0 m' n0 D0 HT0. unfold config_at. rewrite Hcfg. simpl.
    destruct (_specify cfg h0 m') as [e|cfg'] eqn:Hsp; simpl.
    { exists 0, (Raise e). split; [done|]. right. left. eauto. }
    destruct (traverse_total _ _ (convert_action_not_Stuck cfg') (Hq cfg')
                _ _ _ _ HT0) as (out1 & Hout1 & Hpost1).
    destruct out1 as [h1|e|]; simpl in Hpost1; [| |done].
    - destruct Hpost1 as (_ & n1 & D1 & HT1 & _).
      destruct (traverse_total _ _ (observe_action_not_Stuck cfg') (Ho cfg')
                  _ _ _ _ HT1) as (out2 & Hout2 & Hpost2).
      destruct out2 as [h2|e|]; simpl in Hpost2; [| |done].
      + exists (n0 `max` n1), (Ret (m', mkWorld h2 (<[_config self := cfg']> (configs w)))).
        split; [|done]. intros fuel Hle.
        rewrite convert_is_traverse, Hout1 by lia. simpl.
        rewrite observe_is_traverse, Hout2 by lia. done.
      + exists (n0 `max` n1), (Raise e).
        split; [|by eapply raised_observe]. intros fuel Hle.
        rewrite convert_is_traverse, Hout1 by lia. simpl.
        rewrite observe_is_traverse, Hout2 by lia. done.
    - exists n0, (Raise e). split; [|by eapply raised_convert].
      intros fuel Hle. by rewrite convert_is_traverse, Hout1 by lia. }
  destruct inplace.
  - destruct (Hmain _ _ _ _ HT) as (N & out & Hout & Hpost).
    exists N, out. split.
    + intros fuel Hle. unfold quantize. simpl. by apply Hout.
    + by destruct out as [[m' w']| |].
  - destruct (deepcopy (layers w) model) as [e|[h0 m']] eqn:Hdc.
    + exists 0, (Raise e). split.
      * intros fuel _. unfold quantize. by rewrite Hdc.
      * left. eauto.
    + destruct (Hcp _ _ _ _ _ _ HT Hdc) as (_ & n0 & D0 & HT0 & _).
      destruct (Hmain _ _ _ _ HT0) as (N & out & Hout & Hpost).
      exists N, out. split.
      * intros fuel Hle. unfold quantize. rewrite Hdc. simpl. by apply Hout.
      * destruct out as [[m'' w']| |]; [|done..]. subst. eauto.
Qed.

(** *** Nothing to do *)

Lemma convert_loop_all_skipped sc config items replaced h :
  (∀ c, c ∈ items.*2 → _is_quantifiable config h c = inr false) →
  convert_loop sc config items replaced h = Ret (h, replaced).
Proof.
  induction items as [|[name child] items IH]; intros Hno; simpl; [done|].
  rewrite Hno by (rewrite fmap_cons; left). simpl.
  apply IH. intros c Hc. apply Hno. rewrite fmap_cons. by right.
Qed.

Lemma observe_loop_all_descended sc config items replaced h :
  (∀ c, c ∈ items.*2 → _need_observe config h c = inr false ∧ sc c h = Ret h) →
  observe_loop sc config items replaced h = Ret (h, replaced).
Proof.
  induction items as [|[name child] items IH]; intros Hno; simpl; [done|].
  destruct (Hno child) as [-> ->]; [rewrite fmap_cons; left|]. simpl.
  apply IH. intros c Hc. apply Hno. rewrite fmap_cons. by right.
Qed.

Lemma observe_nothing fuel n model config h D :
  (∀ r, reach h model r → _need_observe config h r = inr false) →
  tree h n model D → n ≤ fuel →
  _insert_activation_observers fuel model config h = Ret h.
Proof.
  revert n model D.
  induction fuel as [|fuel IH]; intros n model D Hno HT Hle.
  { destruct n; [done | lia]. }
  destruct n as [|n]; [done|]. simpl in HT.
  destruct HT as (L & D' & HL & _ & HF & _).
  simpl. unfold named_children, layer_at. rewrite HL. simpl.
  rewrite observe_loop_all_descended; [done|].
  intros c Hc. destruct (forest_elem _ _ _ _ HF Hc) as (Dc & HTc & _).
  apply list_elem_of_fmap in Hc as ([name c'] & -> & Hin). cbn [snd] in *.
  split.
  - apply Hno. eapply reach_child; [done | done | constructor].
  - apply (IH n _ Dc); [|done | lia].
    intros r Hr. apply Hno. by eapply reach_child.
Qed.

(** C6, as amended.  When, for the configuration that [_specify] leaves,
    [_is_quantifiable] and [_need_observe] answer false on every node of
    the working model (the model itself in place, its deep copy
    otherwise), whatever they answer elsewhere, [quantize] on a tree
    returns, for every sufficient recursion budget, the working model in
    the working store untouched: with [inplace] the caller's model in the
    caller's store, otherwise exactly the model and the store that
    [copy.deepcopy] returned. *)
Theorem nothing_eligible_nothing_observed
    self model (inplace : bool) w n D cfg h0 m' cfg' :
  copies_tree (deepcopy (Cfg:=Cfg)) →
  tree (layers w) n model D →
  configs w !! _config self = Some cfg →
  (if inplace then h0 = layers w ∧ m' = model
   else deepcopy (layers w) model = inr (h0, m')) →
  _specify cfg h0 m' = inr cfg' →
  (∀ r, reach h0 m' r →
        _is_quantifiable cfg' h0 r = inr false ∧
        _need_observe cfg' h0 r = inr false) →
  ∃ N, ∀ fuel, N ≤ fuel →
    quantize fuel self model inplace w =
      Ret (m', mkWorld h0 (<[_config self := cfg']> (configs w))).
Proof.
  intros Hcp HT Hcfg Hcopy Hsp Hnone.
  destruct (working_tree _ _ _ _ _ _ _ Hcp HT Hcopy)
    as (_ & n0 & D0 & HT0 & _).
  exists n0. intros fuel Hle. unfold quantize, config_at.
  assert ((if inplace then mret (layers w, model)
           else call (deepcopy (layers w) model)) = Ret (h0, m')) as ->.
  { destruct inplace; [by destruct Hcopy as [-> ->] | by rewrite Hcopy]. }
  simpl. rewrite Hcfg. simpl. rewrite Hsp. simpl.
  destruct fuel as [|fuel].
  { destruct n0; [done | lia]. }
  assert (_convert_to_quant_layers (S fuel) m' cfg' h0 = Ret h0) as ->.
  { destruct n0 as [|n0]; [done|]. simpl in HT0.
    destruct HT0 as (L & D' & HL & _ & HF & _).
    simpl. unfold named_children, layer_at. rewrite HL. simpl.
    rewrite convert_loop_all_skipped; [done|].
    intros c Hc. apply list_elem_of_fmap in Hc as ([name c'] & -> & Hin).
    apply Hnone. eapply reach_child; [done | done | constructor]. }
  cbn [mbind res_mbind res_bind].
  erewrite observe_nothing; [done | | done | done].
  intros r Hr. by apply Hnone.
Qed.

(** C2.  [quantize], when it returns, has gone through these steps in
    this order: the working model is the argument or its deep copy;
    [_specify] is called on it; the replacement pass is run; the
    observer pass is run on the store the replacement pass left; the
    working model is returned.  And the observer pass works on the
    replaced tree: wherever in the tree a call of the replacement pass
    (on the working model or on a descendant [p]) replaced a child by
    [v], the name is bound to [v] when the observer pass starts; in the
    end the name is bound to [v] or to the wrapper that
    [_get_observe_wrapper] built from [v], never from the original
    child; and whenever the observer pass is called on [p] (it always is
    on the working model), its loop comes to [v], and if [_need_observe]
    is true of [v] there, the name ends bound to the wrapper built from
    [v]. *)
Theorem quantize_sequence fuel self model inplace w n D m' w' :
  collaborators_ok (E:=E) (LType:=LType) (Cfg:=Cfg) →
  tree (layers w) n model D →
  quantize (S fuel) self model inplace w = Ret (m', w') →
  ∃ h0 cfg cfg' h1,
    (if inplace then h0 = layers w ∧ m' = model
     else deepcopy (layers w) model = inr (h0, m')) ∧
    configs w !! _config self = Some cfg ∧
    _specify cfg h0 m' = inr cfg' ∧
    _convert_to_quant_layers (S fuel) m' cfg' h0 = Ret h1 ∧
    _insert_activation_observers (S fuel) m' cfg' h1 = Ret (layers w') ∧
    configs w' = <[_config self := cfg']> (configs w) ∧
    (∀ f p hp name c hi0 ri0 Lc,
       convert_visits cfg' (S fuel) m' h0 (S f) p hp →
       convert_reaches f p cfg' hp name c hi0 ri0 →
       _is_quantifiable cfg' hi0 c = inr true →
       hi0 !! c = Some Lc → ltype Lc ∈ qat_layer_mappings cfg' →
       ∃ hj0 v,
         _get_qat_layer cfg' hi0 c = inr (hj0, v) ∧
         child_of h1 p name v ∧
         (child_of (layers w') p name v ∨
          ∃ hi hj wv,
            _need_observe cfg' hi v = inr true ∧
            _get_observe_wrapper cfg' hi v = inr (hj, wv) ∧
            child_of (layers w') p name wv) ∧
         (∀ g hq,
            observe_visits cfg' (S fuel) m' h1 (S g) p hq →
            ∃ hi ri,
              observe_reaches g p cfg' hq name v hi ri ∧
              (_need_observe cfg' hi v = inr true →
               ∃ hj wv, _get_observe_wrapper cfg' hi v = inr (hj, wv) ∧
                        child_of (layers w') p name wv))).
Proof.
  intros (Hq & Ho & Hcp & _) HT Hrun.
  apply quantize_inv in Hrun
    as (h0 & cfg & cfg' & h1 & Hcopy & Hcfg & Hsp & Hp1 & Hp2 & Hcs).
  exists h0, cfg, cfg', h1. split_and!; try done.
  destruct (working_tree _ _ _ _ _ _ _ Hcp HT Hcopy)
    as (_ & n0 & D0 & HT0 & _).
  destruct (convert_ret _ _ _ _ _ _ _ (Hq cfg') HT0 Hp1)
    as (_ & n1 & D1 & HT1 & _).
  destruct (observe_ret _ _ _ _ _ _ _ (Ho cfg') HT1 Hp2) as (Hev2 & _).
  intros f p hp name c hi0 ri0 Lc Hvis Hreach Hyes HLc Hty.
  (* the call of the replacement pass on [p] *)
  destruct (convert_visit _ _ _ _ _ _ _ _ _ _ (Hq cfg') HT0 Hvis Hp1)
    as (np & Dp & hp' & HTp & _ & _ & Hrunp & Hstablep).
  destruct (convert_child _ _ _ _ _ _ _ _ _ _ _ (Hq cfg') HTp Hreach Hrunp)
    as (a & Ha & Hcase).
  unfold convert_action, type, layer_at in Ha.
  rewrite Hyes, HLc in Ha. simpl in Ha.
  rewrite bool_decide_false in Ha by (intros Hn; by apply Hn).
  injection Ha as <-. destruct Hcase as (hj0 & v & Hmk & Hbound & _).
  exists hj0, v. split; [done|].
  assert (child_of h1 p name v) as Hbound1.
  { destruct Hbound as (L' & HL' & Hget). exists L'. split; [|done].
    rewrite <-HL'. apply Hstablep. constructor. }
  split; [done|].
  (* a call of the observer pass on [p] *)
  assert (∀ g hq,
            observe_visits cfg' (S fuel) m' h1 (S g) p hq →
            ∃ hi ri (o : bool),
              observe_reaches g p cfg' hq name v hi ri ∧
              _need_observe cfg' hi v = inr o ∧
              if o then
                ∃ hj wv, _get_observe_wrapper cfg' hi v = inr (hj, wv) ∧
                         child_of (layers w') p name wv
              else child_of (layers w') p name v) as Hcalled.
  { intros g hq Hvis2.
    destruct (observe_visit _ _ _ _ _ _ _ _ _ _ (Ho cfg') HT1 Hvis2 Hp2)
      as (nq & Dq & hq' & HTq & _ & Hsameq & Hrunq & Hstableq).
    assert (child_of hq p name v) as Hboundq.
    { destruct Hbound1 as (L' & HL' & Hget). exists L'. split; [|done].
      rewrite <-HL'. apply Hsameq. by apply tree_root in HTq as [? _]. }
    destruct (observe_reaches_child _ _ _ _ _ _ _ _ _ (Ho cfg') HTq Hboundq Hrunq)
      as (hi & ri & Hreach2).
    destruct (observe_child _ _ _ _ _ _ _ _ _ _ _ (Ho cfg') HTq Hreach2 Hrunq)
      as (a & Ha & Hcase).
    assert (∀ c', child_of hq' p name c' → child_of (layers w') p name c')
      as Hfinal.
    { intros c' (L' & HL' & Hget). exists L'. split; [|done].
      rewrite <-HL'. apply Hstableq. constructor. }
    exists hi, ri. unfold observe_action in Ha.
    destruct (_need_observe cfg' hi v) as [e|o] eqn:Hobs; [done|].
    exists o. split; [done|]. split; [done|].
    destruct o; simpl in Ha; injection Ha as <-.
    - destruct Hcase as (hj & wv & Hmk2 & Hbound2 & _).
      exists hj, wv. split; [done|]. by apply Hfinal.
    - destruct Hcase as (hj & _ & Hbound2 & _). by apply Hfinal. }
  split.
  - destruct (decide (p ∈ D1)) as [Hin|Hout].
    + destruct (observe_visited_or_untouched _ _ _ _ _ _ _ _ (Ho cfg') HT1 Hp2 Hin)
        as [(g & hq & Hvis2)|Heq].
      * destruct (Hcalled _ _ Hvis2) as (hi & ri & o & _ & Hobs & Hcase).
        destruct o; [|by left].
        right. destruct Hcase as (hj & wv & ? & ?). exists hi, hj, wv. done.
      * left. destruct Hbound1 as (L' & HL' & Hget). exists L'.
        split; [|done]. by rewrite Heq.
    + left. destruct Hbound1 as (L' & HL' & Hget). exists L'. split; [|done].
      destruct (Hev2 _ _ HL') as (L2 & HL2 & _ & _ & Heq).
      rewrite HL2. f_equal. by apply Heq.
  - intros g hq Hvis2.
    destruct (Hcalled _ _ Hvis2) as (hi & ri & o & Hreach2 & Hobs & Hcase).
    exists hi, ri. split; [done|]. intros Htrue.
    rewrite Htrue in Hobs. injection Hobs as <-. done.
Qed.
End rewriter.

(* ================================================================== *)
(** * The properties on the concrete model *)

Ltac by_compute := apply (bool_decide_unpack _); by vm_compute.

Lemma ineligible_child_skipped_witness :
  _convert_to_quant_layers 3 1%positive Demo.qconfig Demo.model_heap
    = Ret Demo.converted_heap ∧
  child_of Demo.converted_heap 1%positive "normB" 3%positive ∧
  (∀ x, reach Demo.model_heap 3%positive x →
        Demo.converted_heap !! x = Demo.model_heap !! x).
Proof.
  split; [by vm_compute|].
  destruct (ineligible_child_skipped (QuantConfig0:=Demo.config)
              2 3 1%positive Demo.qconfig Demo.model_heap _ "normB" 3%positive
              (<[7%positive := mkLayer Demo.QuantedConv2D []]> Demo.model_heap)
              [("convA"%string, 7%positive)] Demo.converted_heap
              (demo_get_qat_layer_ok Demo.qconfig) demo_model_tree)
    as (_ & Hchild & Hsame).
  - eexists _, [("convA"%string, 2%positive)], _. split_and!; by vm_compute.
  - by vm_compute.
  - by vm_compute.
  - done.
Defined.

Lemma quantize_sequence_witness :
  ∃ w' v wv,
    quantize 3 Demo.qat 1%positive true (Demo.world0 Demo.qconfig)
      = Ret (1%positive, w') ∧
    child_of Demo.converted_heap 5%positive "conv" v ∧
    _get_observe_wrapper
      (Demo.mkCfg [Demo.Net; Demo.Sequential; Demo.Conv2D] [Demo.Conv2D]
         [Demo.QuantedConv2D] (Some 1%positive))
      (<[9%positive := mkLayer Demo.ObserveWrapper [("_observed"%string, 7%positive)]]>
         Demo.converted_heap) v
      = inr (<[10%positive := mkLayer Demo.ObserveWrapper [("_observed"%string, v)]]>
               (<[9%positive := mkLayer Demo.ObserveWrapper
                                  [("_observed"%string, 7%positive)]]>
                  Demo.converted_heap), wv) ∧
    child_of (layers w') 5%positive "conv" wv.
Proof.
  assert (∃ w', quantize 3 Demo.qat 1%positive true (Demo.world0 Demo.qconfig)
                  = Ret (1%positive, w')) as [w' Hrun]
    by (eexists; by vm_compute).
  destruct (quantize_sequence 2 Demo.qat 1%positive true
              (Demo.world0 Demo.qconfig) 3 _ 1%positive w'
              demo_collaborators_ok demo_model_tree Hrun)
    as (h0 & cfg & cfg' & h1 & [-> _] & Hcfg & Hsp & Hp1 & Hp2 & _ & Hobs).
  assert (cfg = Demo.qconfig) as ->
    by (vm_compute in Hcfg; by injection Hcfg as <-).
  assert (cfg' = Demo.mkCfg [Demo.Net; Demo.Sequential; Demo.Conv2D]
                   [Demo.Conv2D] [Demo.QuantedConv2D] (Some 1%positive)) as ->
    by (vm_compute in Hsp; by injection Hsp as <-).
  assert (h1 = Demo.converted_heap) as ->
    by (vm_compute in Hp1; injection Hp1 as <-; by vm_compute).
  (* the nested leaf [features.conv], replaced by the call on [features] *)
  destruct (Hobs 1 5%positive
              (<[7%positive := mkLayer Demo.QuantedConv2D []]> Demo.model_heap)
              "conv"%string 6%positive
              (<[7%positive := mkLayer Demo.QuantedConv2D []]> Demo.model_heap)
              [] (mkLayer Demo.Conv2D []))
    as (hj0 & v & Hmk & Hbound & _ & Hcalled).
  - apply (convert_visits_below _ 2 1%positive Demo.model_heap
             "features"%string 5%positive
             (<[7%positive := mkLayer Demo.QuantedConv2D []]> Demo.model_heap)
             [("convA"%string, 7%positive)]
             (mkLayer Demo.Sequential [("conv"%string, 6%positive)]));
      [| by vm_compute | by vm_compute | by_compute | constructor].
    eexists _, [("convA"%string, 2%positive); ("normB"%string, 3%positive)], _.
    split_and!; by vm_compute.
  - eexists _, [], _. split_and!; by vm_compute.
  - by vm_compute.
  - by vm_compute.
  - by_compute.
  - vm_compute in Hmk. injection Hmk as <- <-.
    destruct (Hcalled 1
                (<[9%positive := mkLayer Demo.ObserveWrapper
                                   [("_observed"%string, 7%positive)]]>
                   Demo.converted_heap))
      as (hi & ri & (L & pre & post & HL & Hsplit & Hpre) & Hwrap).
    + apply (observe_visits_below _ 2 1%positive Demo.converted_heap
               "features"%string 5%positive
               (<[9%positive := mkLayer Demo.ObserveWrapper
                                  [("_observed"%string, 7%positive)]]>
                  Demo.converted_heap)
               [("convA"%string, 9%positive)]);
        [| by vm_compute | constructor].
      eexists _, [("convA"%string, 7%positive); ("normB"%string, 3%positive)], _.
      split_and!; by vm_compute.
    + vm_compute in HL. injection HL as <-.
      destruct pre as [|? [|? ?]]; try discriminate Hsplit.
      vm_compute in Hpre. injection Hpre as <- <-.
      destruct Hwrap as (hj & wv & Hmk2 & Hfinal); [by vm_compute|].
      exists w', 8%positive, wv. split; [exact Hrun|].
      split; [exact Hbound|]. split; [|exact Hfinal].
      vm_compute in Hmk2. injection Hmk2 as <- <-. by vm_compute.
Defined.

Lemma eligible_child_descended_or_replaced_witness :
  ∃ h', _convert_to_quant_layers 3 1%positive Demo.qconfig Demo.model_heap = Ret h' ∧
    (∃ hj v, _get_qat_layer Demo.qconfig Demo.model_heap 2%positive = inr (hj, v) ∧
             child_of h' 1%positive "convA" v) ∧
    child_of h' 1%positive "features" 5%positive.
Proof.
  exists Demo.converted_heap. split; [by vm_compute|]. split.
  - destruct (eligible_child_descended_or_replaced (QuantConfig0:=Demo.config)
                2 3 1%positive Demo.qconfig Demo.model_heap _ "convA" 2%positive
                Demo.model_heap [] (mkLayer Demo.Conv2D []) Demo.converted_heap
                (demo_get_qat_layer_ok Demo.qconfig) demo_model_tree)
      as [_ Hmapped].
    + eexists _, [], _. split_and!; by vm_compute.
    + by vm_compute.
    + by vm_compute.
    + by vm_compute.
    + destruct Hmapped as (hj & v & Hmk & _ & Hchild & _); [by_compute|].
      exists hj, v. done.
  - destruct (eligible_child_descended_or_replaced (QuantConfig0:=Demo.config)
                2 3 1%positive Demo.qconfig Demo.model_heap _ "features" 5%positive
                (<[7%positive := mkLayer Demo.QuantedConv2D []]> Demo.model_heap)
                [("convA"%string, 7%positive)]
                (mkLayer Demo.Sequential [("conv"%string, 6%positive)])
                Demo.converted_heap
                (demo_get_qat_layer_ok Demo.qconfig) demo_model_tree)
      as [Hunmapped _].
    + eexists _, [("convA"%string, 2%positive); ("normB"%string, 3%positive)], _.
      split_and!; by vm_compute.
    + by vm_compute.
    + by vm_compute.
    + by vm_compute.
    + destruct Hunmapped as (_ & hj & _ & Hchild & _); [by_compute|]. done.
Defined.

Lemma replacements_installed_after_loop_witness :
  ∃ h1 replaced,
    _convert_to_quant_layers 3 1%positive Demo.qconfig Demo.model_heap
      = Ret Demo.converted_heap ∧
    convert_loop (λ c, _convert_to_quant_layers 2 c Demo.qconfig) Demo.qconfig
      [("convA"%string, 2%positive); ("normB"%string, 3%positive);
       ("features"%string, 5%positive)] [] Demo.model_heap = Ret (h1, replaced) ∧
    install (E:=Demo.Exn) replaced 1%positive h1 = Ret Demo.converted_heap.
Proof.
  destruct (replacements_installed_after_loop (QuantConfig0:=Demo.config)
              2 3 1%positive Demo.qconfig Demo.model_heap _
              (mkLayer Demo.Net [("convA"%string, 2%positive);
                                 ("normB"%string, 3%positive);
                                 ("features"%string, 5%positive)])
              (demo_get_qat_layer_ok Demo.qconfig)
              (demo_get_observe_wrapper_ok Demo.qconfig)
              demo_model_tree) as (Hconvert & _); [by vm_compute|].
  destruct (Hconvert Demo.converted_heap) as (h1 & replaced & Hloop & Hinst);
    [by vm_compute|].
  exists h1, replaced. split_and!; [by vm_compute | exact Hloop | exact Hinst].
Defined.

Lemma observed_child_wrapped_or_descended_witness :
  ∃ h', _insert_activation_observers 3 1%positive Demo.qconfig Demo.converted_heap
          = Ret h' ∧
    ∃ hj v, _get_observe_wrapper Demo.qconfig Demo.converted_heap 7%positive
              = inr (hj, v) ∧
            child_of h' 1%positive "convA" v ∧
            (∀ x, reach Demo.converted_heap 7%positive x →
                  h' !! x = Demo.converted_heap !! x).
Proof.
  assert (∃ h', _insert_activation_observers 3 1%positive Demo.qconfig
                  Demo.converted_heap = Ret h') as [h' Hrun]
    by (eexists; by vm_compute).
  exists h'. split; [exact Hrun|].
  destruct (observed_child_wrapped_or_descended (QuantConfig0:=Demo.config)
              2 3 1%positive Demo.qconfig Demo.converted_heap _ "convA" 7%positive
              Demo.converted_heap [] h'
              (demo_get_observe_wrapper_ok Demo.qconfig) demo_converted_tree)
    as (o & Ho & Hcase).
  - eexists _, [], _. split_and!; by vm_compute.
  - exact Hrun.
  - vm_compute in Ho. injection Ho as <-.
    destruct Hcase as (hj & v & Hmk & _ & Hchild & Hsame & _).
    exists hj, v. done.
Defined.

Lemma nothing_eligible_nothing_observed_witness :
  _is_quantifiable
    (Demo.mkCfg [Demo.Sequential] [Demo.Conv2D] [Demo.QuantedConv2D]
       (Some 3%positive)) Demo.model_heap 5%positive = inr true ∧
  ∃ N, ∀ fuel, N ≤ fuel →
    quantize fuel Demo.qat 3%positive true (Demo.world0 sequential_config) =
      Ret (3%positive,
           mkWorld Demo.model_heap
             (<[1%positive := Demo.mkCfg [Demo.Sequential] [Demo.Conv2D]
                                [Demo.QuantedConv2D] (Some 3%positive)]>
                (configs (Demo.world0 sequential_config)))).
Proof.
  split; [by vm_compute|].
  assert (tree Demo.model_heap 2 3%positive (list_to_set [3; 4]%positive))
    as HT by (apply check_tree_sound; by vm_compute).
  apply (nothing_eligible_nothing_observed
           (QuantConfig0:=Demo.config) (DeepCopy0:=Demo.copy) Demo.qat
           3%positive true (Demo.world0 sequential_config) 2 _
           sequential_config Demo.model_heap 3%positive _
           demo_copy_layers_ok HT).
  - by vm_compute.
  - by split.
  - by vm_compute.
  - intros r Hr. pose proof (reach_in_tree _ _ _ _ _ HT Hr) as Hin.
    apply elem_of_list_to_set in Hin.
    apply elem_of_cons in Hin as [->|Hin]; [by vm_compute|].
    apply elem_of_cons in Hin as [->|Hin]; [by vm_compute|].
    by apply elem_of_nil in Hin.
Defined.

(** C6, as stated, fails: under [observing_config] no object is eligible,
    before or after [_specify], and yet [quantize] rebinds [convA] to an
    observer wrapper. *)
Lemma eligible_free_model_still_wrapped :
  ∃ cfg' w',
    _specify Demo.observing_config Demo.model_heap 1%positive = inr cfg' ∧
    (∀ h r, is_Some (h !! r) →
       _is_quantifiable Demo.observing_config h r = inr false ∧
       _is_quantifiable cfg' h r = inr false) ∧
    quantize 3 Demo.qat 1%positive true (Demo.world0 Demo.observing_config)
      = Ret (1%positive, w') ∧
    child_of Demo.model_heap 1%positive "convA" 2%positive ∧
    ¬ child_of (layers w') 1%positive "convA" 2%positive ∧
    layers w' ≠ Demo.model_heap.
Proof.
  eexists _, _. split_and!.
  - by vm_compute.
  - intros h r Hr. split; by apply demo_nothing_quantifiable.
  - by vm_compute.
  - eexists. split; by vm_compute.
  - intros (L & HL & Hget). vm_compute in HL. injection HL as <-.
    vm_compute in Hget. discriminate.
  - intros Heq. apply (f_equal (λ h : heap Demo.Kind, h !! 1%positive)) in Heq.
    vm_compute in Heq. discriminate.
Qed.

Lemma inplace_false_leaves_original_witness :
  ∃ m' w',
    quantize 3 Demo.qat 1%positive false (Demo.world0 Demo.qconfig) = Ret (m', w') ∧
    m' ∉ dom Demo.model_heap ∧
    (∀ x L, Demo.model_heap !! x = Some L → layers w' !! x = Some L).
Proof.
  assert (∃ m' w', quantize 3 Demo.qat 1%positive false (Demo.world0 Demo.qconfig)
                     = Ret (m', w')) as (m' & w' & Hrun)
    by (eexists _, _; by vm_compute).
  exists m', w'. split; [exact Hrun|].
  exact (inplace_false_leaves_original 3 Demo.qat 1%positive
           (Demo.world0 Demo.qconfig) 3 _ m' w'
           demo_collaborators_ok demo_model_tree Hrun).
Defined.

Lemma config_copy_isolated_witness :
  ∃ self w',
    __init__ (E:=Demo.Exn) 1%positive (Demo.world0 Demo.qconfig) = Ret (self, w') ∧
    _config self ≠ 1%positive ∧
    configs w' !! _config self = Some Demo.qconfig.
Proof.
  assert (∃ self w', __init__ (E:=Demo.Exn) 1%positive (Demo.world0 Demo.qconfig)
                       = Ret (self, w')) as (self & w' & Hinit)
    by (eexists _, _; by vm_compute).
  exists self, w'. split; [exact Hinit|].
  destruct (config_copy_isolated (QuantConfig0:=Demo.config)
              (DeepCopy0:=Demo.copy) 1%positive (Demo.world0 Demo.qconfig)
              self w' demo_copy_config_ok Hinit) as (_ & Hne & Hcopy & _).
  split; [exact Hne | exact Hcopy].
Defined.

Lemma errors_come_from_collaborators_witness :
  quantize (QuantConfig0:=unregistered_config) (DeepCopy0:=Demo.copy)
    3 Demo.qat 1%positive true (Demo.world0 Demo.qconfig)
    = Raise Demo.KeyError.
Proof.
  destruct (errors_come_from_collaborators (QuantConfig0:=unregistered_config)
              (DeepCopy0:=Demo.copy) Demo.qat 1%positive true
              (Demo.world0 Demo.qconfig) 3 _
              unregistered_collaborators_ok demo_model_tree)
    as [Hraise _].
  - eexists. by vm_compute.
  - apply Hraise. right.
    exists Demo.model_heap, 1%positive, Demo.qconfig.
    split; [done|]. split; [by vm_compute|]. right.
    eexists. split; [by vm_compute|]. left.
    exists 2, 1%positive, Demo.model_heap, "convA"%string, 2%positive,
      Demo.model_heap, []. split_and!.
    + constructor.
    + eexists _, [], _. split_and!; by vm_compute.
    + right. exists (mkLayer Demo.Conv2D []).
      split_and!; [by vm_compute | by vm_compute | by_compute | done].
Defined.

Lemma child_names_preserved_witness :
  ∃ w', quantize 3 Demo.qat 1%positive true (Demo.world0 Demo.qconfig)
          = Ret (1%positive, w') ∧
        names_kept Demo.model_heap (layers w').
Proof.
  assert (∃ w', quantize 3 Demo.qat 1%positive true (Demo.world0 Demo.qconfig)
                  = Ret (1%positive, w')) as [w' Hrun]
    by (eexists; by vm_compute).
  exists w'. split; [exact Hrun|].
  destruct (child_names_preserved demo_collaborators_ok)
    as (_ & _ & _ & _ & Hquantize).
  destruct (Hquantize 3 Demo.qat 1%positive true (Demo.world0 Demo.qconfig)
              3 _ 1%positive w' demo_model_tree Hrun) as (h0 & -> & Hkept).
  exact Hkept.
Defined.


(* ================================================================== *)
(** * Further properties *)

Section installation.
Context {E LType : Type}.
Local Abbreviation heap := (gmap ref (Layer LType)).
Implicit Types (h : heap) (replaced d : odict).

Lemma odict_get_update replaced d k :
  NoDup replaced.*1 →
  odict_get (odict_update replaced d) k =
    match odict_get replaced k with
    | Some v => Some v
    | None => odict_get d k
    end.
Proof.
  revert d. induction replaced as [|[k0 v0] rest IH]; intros d Hnd; [done|].
  rewrite fmap_cons in Hnd. simpl in Hnd. apply NoDup_cons in Hnd as [Hk0 Hnd].
  change (odict_update ((k0, v0) :: rest) d)
    with (odict_update rest (odict_set k0 v0 d)).
  rewrite IH by done. simpl. rewrite odict_get_set.
  case_decide; [|done]. subst.
  apply odict_get_None in Hk0. by rewrite Hk0.
Qed.

(** The installation loop [for key, value in replaced.items():
    model._sub_layers[key] = value] always succeeds on an existing object.
    Afterwards every staged key is bound to its staged value, every other
    name is bound as before, the class of the object is unchanged, and no
    other object of the store has changed. *)
Theorem install_lookup replaced model h L :
  h !! model = Some L → NoDup replaced.*1 →
  ∃ h' L',
    install (E:=E) replaced model h = Ret h' ∧
    h' !! model = Some L' ∧ ltype L' = ltype L ∧
    (∀ k v, odict_get replaced k = Some v →
            odict_get (_sub_layers L') k = Some v) ∧
    (∀ k, odict_get replaced k = None →
          odict_get (_sub_layers L') k = odict_get (_sub_layers L) k) ∧
    (∀ x, x ≠ model → h' !! x = h !! x).
Proof.
  intros HL Hnd. eexists _, _. split; [by apply install_spec|].
  rewrite lookup_insert_eq. split; [done|]. simpl. split_and!; [done | | |].
  - intros k v Hk. by rewrite odict_get_update, Hk.
  - intros k Hk. by rewrite odict_get_update, Hk.
  - intros x Hx. by rewrite lookup_insert_ne.
Qed.
End installation.

Section more_on_passes.
Context {E LType Cfg : Type} `{!EqDecision LType}.
Context `{!QuantConfig E LType Cfg} `{!DeepCopy E LType Cfg}.
Local Abbreviation heap := (gmap ref (Layer LType)).
Implicit Types (h : heap) (config : Cfg) (w : world LType Cfg).

(** A model without children is left as it is by both passes and by
    [quantize] in place, whatever the configuration answers: the root is
    never examined, so a bare layer is not replaced even when its class is
    in the mapping. *)
Theorem childless_model_untouched fuel self model w L cfg cfg' :
  layers w !! model = Some L → _sub_layers L = [] →
  configs w !! _config self = Some cfg →
  _specify cfg (layers w) model = inr cfg' →
  (∀ config,
     _convert_to_quant_layers (S fuel) model config (layers w) = Ret (layers w) ∧
     _insert_activation_observers (S fuel) model config (layers w)
       = Ret (layers w)) ∧
  quantize (S fuel) self model true w =
    Ret (model, mkWorld (layers w) (<[_config self := cfg']> (configs w))).
Proof.
  intros HL Hsubs Hcfg Hsp.
  assert (∀ config,
     _convert_to_quant_layers (S fuel) model config (layers w) = Ret (layers w) ∧
     _insert_activation_observers (S fuel) model config (layers w)
       = Ret (layers w)) as Hpasses.
  { intros config. simpl. unfold named_children, layer_at.
    rewrite HL. simpl. by rewrite Hsubs. }
  split; [done|]. unfold quantize, config_at.
  cbn [mbind res_mbind res_bind mret res_mret].
  rewrite Hcfg. cbn [mbind res_mbind res_bind]. rewrite Hsp.
  cbn [call mbind res_mbind res_bind].
  destruct (Hpasses cfg') as [H1 H2].
  rewrite H1. cbn [mbind res_mbind res_bind]. by rewrite H2.
Qed.

(** *** The bindings after a pass *)

Lemma convert_reaches_child fuel n model config h D name child h' :
  allocates_tree (_get_qat_layer config) →
  tree h n model D → child_of h model name child →
  _convert_to_quant_layers (S fuel) model config h = Ret h' →
  ∃ hi ri, convert_reaches fuel model config h name child hi ri.
Proof.
  intros Hq HT (L & HL & Hget) Hrun.
  apply odict_get_Some_elem, list_elem_of_split in Hget as (pre & post & Hsplit).
  rewrite convert_is_traverse in Hrun.
  destruct (traverse_child _ _ (convert_action_not_Stuck config) Hq
              _ _ _ _ _ _ _ _ _ _ _ HT HL Hsplit Hrun)
    as (hi & ri & _ & _ & Hpre & _).
  exists hi, ri, L, pre, post. split_and!; [done..|].
  by erewrite convert_loop_is_traverse by (intros; apply convert_is_traverse).
Qed.

(** After either pass on a node of a tree, a name of the node is bound
    either to the child it was bound to before, or to the object that the
    constructor ([_get_qat_layer], [_get_observe_wrapper]) returned when
    the loop came to that very child and the configuration selected it;
    the pass never binds a name to anything else. *)
Theorem names_rebound_only_to_replacements fuel n model config h D name child :
  allocates_tree (_get_qat_layer config) →
  allocates_tree (_get_observe_wrapper config) →
  tree h n model D → child_of h model name child →
  (∀ h', _convert_to_quant_layers (S fuel) model config h = Ret h' →
     child_of h' model name child ∨
     ∃ hi ri hj v Lc,
       convert_reaches fuel model config h name child hi ri ∧
       _is_quantifiable config hi child = inr true ∧
       hi !! child = Some Lc ∧ ltype Lc ∈ qat_layer_mappings config ∧
       _get_qat_layer config hi child = inr (hj, v) ∧
       child_of h' model name v) ∧
  (∀ h', _insert_activation_observers (S fuel) model config h = Ret h' →
     child_of h' model name child ∨
     ∃ hi ri hj v,
       observe_reaches fuel model config h name child hi ri ∧
       _need_observe config hi child = inr true ∧
       _get_observe_wrapper config hi child = inr (hj, v) ∧
       child_of h' model name v).
Proof.
  intros Hq Ho HT Hchild. split; intros h' Hrun.
  - destruct (convert_reaches_child _ _ _ _ _ _ _ _ _ Hq HT Hchild Hrun)
      as (hi & ri & Hreach).
    destruct (convert_child _ _ _ _ _ _ _ _ _ _ _ Hq HT Hreach Hrun)
      as (a & Ha & Hcase).
    destruct a.
    + left. by destruct Hcase.
    + left. by destruct Hcase as (hj & _ & ? & _).
    + right. destruct Hcase as (hj & v & Hmk & Hbound & _).
      apply convert_action_Replace in Ha as (Hyes & Lc & HLc & Hin).
      exists hi, ri, hj, v, Lc. done.
  - destruct (observe_reaches_child _ _ _ _ _ _ _ _ _ Ho HT Hchild Hrun)
      as (hi & ri & Hreach).
    destruct (observe_child _ _ _ _ _ _ _ _ _ _ _ Ho HT Hreach Hrun)
      as (a & Ha & Hcase).
    destruct a; [done | |].
    + left. by destruct Hcase as (hj & _ & ? & _).
    + right. destruct Hcase as (hj & v & Hmk & Hbound & _).
      apply observe_action_Replace in Ha.
      exists hi, ri, hj, v. done.
Qed.

(** *** Exceptions inside a pass *)

Lemma traverse_raise_at classify (make : heap → ref → E + (heap * ref))
    fuel model h L pre name child post hi ri e :
  h !! model = Some L → _sub_layers L = pre ++ (name, child) :: post →
  traverse_loop classify make (traverse classify make fuel) pre [] h
    = Ret (hi, ri) →
  traverse_body classify make (traverse classify make fuel) name child ri hi
    = Raise e →
  traverse classify make (S fuel) model h = Raise e.
Proof.
  intros HL Hsplit Hpre Hbody. simpl. unfold named_children, layer_at.
  rewrite HL. simpl. rewrite Hsplit, traverse_loop_app, Hpre. simpl.
  by rewrite Hbody.
Qed.

(** When the loop of a pass has come to a child and the query, the
    constructor or the recursive call made for that child raises, the
    pass raises that same exception: nothing is caught on the way up. *)
Theorem exception_at_child_propagates fuel model config h name child hi ri e :
  (convert_reaches fuel model config h name child hi ri →
   _is_quantifiable config hi child = inl e ∨
   (∃ Lc, _is_quantifiable config hi child = inr true ∧
          hi !! child = Some Lc ∧
          if bool_decide (ltype Lc ∈ qat_layer_mappings config)
          then _get_qat_layer config hi child = inl e
          else _convert_to_quant_layers fuel child config hi = Raise e) →
   _convert_to_quant_layers (S fuel) model config h = Raise e) ∧
  (observe_reaches fuel model config h name child hi ri →
   _need_observe config hi child = inl e ∨
   (_need_observe config hi child = inr true ∧
    _get_observe_wrapper config hi child = inl e) ∨
   (_need_observe config hi child = inr false ∧
    _insert_activation_observers fuel child config hi = Raise e) →
   _insert_activation_observers (S fuel) model config h = Raise e).
Proof.
  split.
  - intros (L & pre & post & HL & Hsplit & Hpre) Hcase.
    rewrite convert_is_traverse.
    erewrite convert_loop_is_traverse in Hpre
      by (intros; apply convert_is_traverse).
    eapply traverse_raise_at; [done..|].
    unfold traverse_body. rewrite <-convert_is_traverse.
    unfold convert_action, type, layer_at.
    destruct Hcase as [->|(Lc & -> & -> & Hcase)]; simpl; [done|].
    case_bool_decide as Hin.
    + rewrite bool_decide_false by (intros Hn; by apply Hn). simpl.
      by rewrite Hcase.
    + rewrite bool_decide_true by done. simpl. by rewrite Hcase.
  - intros (L & pre & post & HL & Hsplit & Hpre) Hcase.
    rewrite observe_is_traverse.
    erewrite observe_loop_is_traverse in Hpre
      by (intros; apply observe_is_traverse).
    eapply traverse_raise_at; [done..|].
    unfold traverse_body. rewrite <-observe_is_traverse.
    unfold observe_action.
    destruct Hcase as [->|[[-> ->]|[-> Hcase]]]; simpl; [done..|].
    by rewrite Hcase.
Qed.

(** *** What [quantize] leaves behind *)

Lemma quantize_evolves fuel self model inplace w n D m' w' :
  collaborators_ok (E:=E) (LType:=LType) (Cfg:=Cfg) →
  tree (layers w) n model D →
  quantize fuel self model inplace w = Ret (m', w') →
  ∃ h0 n0 D0 n2 D2,
    (if inplace then h0 = layers w ∧ m' = model
     else deepcopy (layers w) model = inr (h0, m')) ∧
    layers w ⊆ h0 ∧ tree h0 n0 m' D0 ∧
    (if inplace then D0 = D else D0 ## dom (layers w)) ∧
    evolves D0 h0 (layers w') ∧
    tree (layers w') n2 m' D2 ∧ (D2 ⊆ D0 ∪ (dom (layers w') ∖ dom h0)).
Proof.
  intros (Hq & Ho & Hcp & _) HT Hrun.
  apply quantize_inv in Hrun
    as (h0 & cfg & cfg' & h1 & Hcopy & _ & _ & Hp1 & Hp2 & _).
  assert (layers w ⊆ h0 ∧ ∃ n0 D0, tree h0 n0 m' D0 ∧
            if inplace then D0 = D else D0 ## dom (layers w))
    as (Hsub & n0 & D0 & HT0 & HD0).
  { destruct inplace.
    - destruct Hcopy as [-> ->]. split; [done|]. by exists n, D.
    - destruct (Hcp _ _ _ _ _ _ HT Hcopy) as (Hsub & n0 & D0 & HT0 & Hdisj).
      split; [done|]. by exists n0, D0. }
  destruct (convert_ret _ _ _ _ _ _ _ (Hq cfg') HT0 Hp1)
    as (Hev1 & n1 & D1 & HT1 & HD1).
  destruct (observe_ret _ _ _ _ _ _ _ (Ho cfg') HT1 Hp2)
    as (Hev2 & n2 & D2 & HT2 & HD2).
  pose proof (evolves_dom _ _ _ Hev1) as Hdom1.
  pose proof (evolves_dom _ _ _ Hev2) as Hdom2.
  exists h0, n0, D0, n2, D2. split_and!; try done.
  - eapply evolves_trans; [done | done | done | set_solver].
  - set_solver.
Qed.

(** In place, [quantize] returns its argument and writes only to the model
    and its descendants: every other object of the store is exactly as it
    was before the call. *)
Theorem inplace_changes_only_the_model fuel self model w n D m' w' :
  collaborators_ok (E:=E) (LType:=LType) (Cfg:=Cfg) →
  tree (layers w) n model D →
  quantize fuel self model true w = Ret (m', w') →
  m' = model ∧
  (∀ x L, layers w !! x = Some L → ¬ reach (layers w) model x →
          layers w' !! x = Some L).
Proof.
  intros Hok HT Hrun.
  destruct (quantize_evolves _ _ _ _ _ _ _ _ _ Hok HT Hrun)
    as (h0 & n0 & D0 & n2 & D2 & [-> ->] & _ & _ & -> & Hev & _).
  split; [done|]. intros x L HL Hx.
  destruct (Hev _ _ HL) as (L' & HL' & _ & _ & Heq).
  rewrite HL'. f_equal. apply Heq. intros Hin. apply Hx.
  by eapply tree_reach.
Qed.

(** [quantize] never deletes an object and never changes the class of one:
    every object of the store it works on (the caller's store in place,
    the store after the deep copy otherwise) is still there when it
    returns, with the class it had; in particular the returned root keeps
    its class, and replaced children stay in the store as they were
    built. *)
Theorem quantize_keeps_objects_and_classes fuel self model inplace w n D m' w' :
  collaborators_ok (E:=E) (LType:=LType) (Cfg:=Cfg) →
  tree (layers w) n model D →
  quantize fuel self model inplace w = Ret (m', w') →
  ∀ x L, layers w !! x = Some L →
    ∃ L', layers w' !! x = Some L' ∧ ltype L' = ltype L.
Proof.
  intros Hok HT Hrun x L HL.
  destruct (quantize_evolves _ _ _ _ _ _ _ _ _ Hok HT Hrun)
    as (h0 & n0 & D0 & n2 & D2 & _ & Hsub & _ & _ & Hev & _).
  destruct (Hev x L) as (L' & HL' & Hty & _); [by eapply lookup_weaken|].
  eauto.
Qed.

(** The model [quantize] returns is again the root of a tree: no object is
    reached along two paths and no name is duplicated, so that the result
    can be quantized or traversed again.  With [inplace=False] no object
    of that tree is an object of the caller's store: the result shares
    nothing with the original. *)
Theorem quantize_returns_a_tree fuel self model inplace w n D m' w' :
  collaborators_ok (E:=E) (LType:=LType) (Cfg:=Cfg) →
  tree (layers w) n model D →
  quantize fuel self model inplace w = Ret (m', w') →
  (∃ n' D', tree (layers w') n' m' D') ∧
  (inplace = false →
   ∀ x, reach (layers w') m' x → x ∉ dom (layers w)).
Proof.
  intros Hok HT Hrun.
  destruct (quantize_evolves _ _ _ _ _ _ _ _ _ Hok HT Hrun)
    as (h0 & n0 & D0 & n2 & D2 & _ & Hsub & HT0 & HD0 & Hev & HT2 & HD2).
  split; [eauto|]. intros -> x Hx.
  pose proof (reach_in_tree _ _ _ _ _ HT2 Hx) as Hin.
  pose proof (subseteq_dom _ _ Hsub). set_solver.
Qed.

(** Two calls of [quantize] with [inplace=False] on the same model, by any
    two rewriters, are independent: after both, every object of the
    original store and every object of the first result is exactly as it
    was, and the second result shares no object with the first result or
    with the original. *)
Theorem repeated_quantize_independent
    fuel1 fuel2 self1 self2 model w n D m1 w1 m2 w2 :
  collaborators_ok (E:=E) (LType:=LType) (Cfg:=Cfg) →
  tree (layers w) n model D →
  quantize fuel1 self1 model false w = Ret (m1, w1) →
  quantize fuel2 self2 model false w1 = Ret (m2, w2) →
  (∀ x L, layers w !! x = Some L → layers w2 !! x = Some L) ∧
  (∀ x L, layers w1 !! x = Some L → layers w2 !! x = Some L) ∧
  (∀ x, reach (layers w2) m2 x →
        x ∉ dom (layers w) ∧ ¬ reach (layers w1) m1 x).
Proof.
  intros Hok HT Hrun1 Hrun2.
  assert (∀ fuel self wa na Da ma wb,
            tree (layers wa) na model Da →
            quantize fuel self model false wa = Ret (ma, wb) →
            (∀ x L, layers wa !! x = Some L → layers wb !! x = Some L) ∧
            (∃ nb Db, tree (layers wb) nb ma Db) ∧
            (∀ x, reach (layers wb) ma x → x ∉ dom (layers wa))) as Hone.
  { intros fuel self wa na Da ma wb HTa Hrun.
    destruct (quantize_evolves _ _ _ _ _ _ _ _ _ Hok HTa Hrun)
      as (h0 & n0 & D0 & n2 & D2 & _ & Hsub & HT0 & HD0 & Hev & HT2 & HD2).
    pose proof (subseteq_dom _ _ Hsub) as Hdom.
    split_and!.
    - intros x L HL.
      destruct (Hev x L) as (L' & HL' & _ & _ & Heq); [by eapply lookup_weaken|].
      rewrite HL'. f_equal. apply Heq.
      assert (x ∈ dom (layers wa)) by (apply elem_of_dom; eauto). set_solver.
    - eauto.
    - intros x Hx. pose proof (reach_in_tree _ _ _ _ _ HT2 Hx). set_solver. }
  destruct (Hone _ _ _ _ _ _ _ HT Hrun1) as (Hsame1 & (nb & Db & HTb) & Hnew1).
  assert (tree (layers w1) n model D) as HT1.
  { eapply tree_agree; [done|]. intros x Hx.
    apply (tree_dom _ _ _ _ HT), elem_of_dom in Hx as [L HL].
    rewrite HL. by apply Hsame1. }
  destruct (Hone _ _ _ _ _ _ _ HT1 Hrun2) as (Hsame2 & _ & Hnew2).
  split_and!; [by auto | done |].
  intros x Hx. specialize (Hnew2 x Hx). split.
  - intros [L HL]%elem_of_dom. apply Hnew2, elem_of_dom. eauto.
  - intros Hx1. apply Hnew2. apply (tree_dom _ _ _ _ HTb).
    by eapply reach_in_tree.
Qed.
End more_on_passes.

Section more_on_rewriters.
Context {E LType Cfg : Type}.
Context `{!DeepCopy E LType Cfg} `{!ConfigDetails E Cfg}.
Implicit Types (w : world LType Cfg).

(** Two rewriters constructed from the same configuration object own two
    distinct copies, both distinct from the caller's object and both
    holding the state the caller's object had; constructing the second
    changes neither the first copy nor the caller's object. *)
Theorem two_rewriters_two_copies (config : ref) w q1 w1 q2 w2 :
  copies_config (deepcopy_config (LType:=LType)) →
  __init__ config w = Ret (q1, w1) →
  __init__ config w1 = Ret (q2, w2) →
  _config q1 ≠ _config q2 ∧ _config q1 ≠ config ∧ _config q2 ≠ config ∧
  configs w2 !! _config q1 = configs w !! config ∧
  configs w2 !! _config q2 = configs w !! config ∧
  configs w2 !! config = configs w !! config.
Proof.
  intros Hcp Hinit1 Hinit2. unfold __init__ in *.
  apply res_bind_Ret in Hinit1 as ([cs1 c1] & Hcopy1%call_Ret & Hinit1).
  injection Hinit1 as <- <-.
  apply res_bind_Ret in Hinit2 as ([cs2 c2] & Hcopy2%call_Ret & Hinit2).
  injection Hinit2 as <- <-. simpl in *.
  destruct (Hcp _ _ _ _ Hcopy1) as (v1 & Hv1 & Hfresh1 & ->).
  destruct (Hcp _ _ _ _ Hcopy2) as (v2 & Hv2 & Hfresh2 & ->).
  assert (c1 ≠ config) as Hne1.
  { intros ->. apply Hfresh1, elem_of_dom. eauto. }
  rewrite lookup_insert_ne in Hv2 by done.
  assert (v2 = v1) as -> by congruence.
  assert (c2 ≠ c1) as Hne21.
  { intros ->. apply Hfresh2. rewrite dom_insert_L. set_solver. }
  assert (c2 ≠ config) as Hne2.
  { intros ->. apply Hfresh2. rewrite dom_insert_L.
    apply elem_of_union_r, elem_of_dom. eauto. }
  split_and!; try done.
  - rewrite lookup_insert_ne, lookup_insert_eq by done. done.
  - by rewrite lookup_insert_eq.
  - by rewrite !lookup_insert_ne by done.
Qed.

End more_on_rewriters.


(** ** The further properties on the concrete model *)

Lemma install_lookup_witness :
  ∃ h' L',
    install (E:=Demo.Exn) [("convA"%string, 7%positive)] 1%positive
      Demo.model_heap = Ret h' ∧
    h' !! 1%positive = Some L' ∧
    odict_get (_sub_layers L') "convA" = Some 7%positive ∧
    odict_get (_sub_layers L') "normB" = Some 3%positive.
Proof.
  destruct (install_lookup (E:=Demo.Exn) [("convA"%string, 7%positive)]
              1%positive Demo.model_heap
              (mkLayer Demo.Net [("convA"%string, 2%positive);
                                 ("normB"%string, 3%positive);
                                 ("features"%string, 5%positive)]))
    as (h' & L' & Hrun & HL' & _ & Hstaged & Hother & _).
  - by vm_compute.
  - apply NoDup_singleton.
  - exists h', L'. split_and!; [done | done | |].
    + by apply Hstaged.
    + by rewrite Hother.
Defined.

Lemma childless_model_untouched_witness :
  quantize 1 Demo.qat 2%positive true (Demo.world0 Demo.qconfig) =
    Ret (2%positive,
         mkWorld Demo.model_heap
           (<[1%positive := Demo.mkCfg [Demo.Net; Demo.Sequential; Demo.Conv2D]
                              [Demo.Conv2D] [Demo.QuantedConv2D] (Some 2%positive)]>
              (configs (Demo.world0 Demo.qconfig)))).
Proof.
  apply (childless_model_untouched (QuantConfig0:=Demo.config)
           (DeepCopy0:=Demo.copy) 0 Demo.qat 2%positive
           (Demo.world0 Demo.qconfig) (mkLayer Demo.Conv2D []) Demo.qconfig).
  - by vm_compute.
  - done.
  - by vm_compute.
  - by vm_compute.
Defined.

Lemma names_rebound_only_to_replacements_witness :
  child_of Demo.converted_heap 1%positive "convA" 2%positive ∨
  ∃ hi ri hj v Lc,
    convert_reaches 2 1%positive Demo.qconfig Demo.model_heap "convA"
      2%positive hi ri ∧
    _is_quantifiable Demo.qconfig hi 2%positive = inr true ∧
    hi !! 2%positive = Some Lc ∧
    ltype Lc ∈ qat_layer_mappings Demo.qconfig ∧
    _get_qat_layer Demo.qconfig hi 2%positive = inr (hj, v) ∧
    child_of Demo.converted_heap 1%positive "convA" v.
Proof.
  destruct (names_rebound_only_to_replacements (QuantConfig0:=Demo.config)
              2 3 1%positive Demo.qconfig Demo.model_heap _ "convA" 2%positive
              (demo_get_qat_layer_ok Demo.qconfig)
              (demo_get_observe_wrapper_ok Demo.qconfig)
              demo_model_tree) as [Hconvert _].
  - eexists. split; by vm_compute.
  - apply Hconvert. by vm_compute.
Defined.

Lemma exception_at_child_propagates_witness :
  _convert_to_quant_layers (QuantConfig0:=unregistered_config) 3 1%positive
    Demo.qconfig Demo.model_heap = Raise Demo.KeyError.
Proof.
  destruct (exception_at_child_propagates (QuantConfig0:=unregistered_config)
              2 1%positive Demo.qconfig Demo.model_heap "convA" 2%positive
              Demo.model_heap [] Demo.KeyError) as [Hconvert _].
  apply Hconvert.
  - eexists _, [], _. split_and!; by vm_compute.
  - right. exists (mkLayer Demo.Conv2D []). split_and!; by vm_compute.
Defined.

Lemma demo_features_tree :
  tree Demo.model_heap 2 5%positive (list_to_set [5; 6]%positive).
Proof. apply check_tree_sound. by vm_compute. Qed.

Lemma inplace_changes_only_the_model_witness :
  ∃ w', quantize 3 Demo.qat 5%positive true (Demo.world0 Demo.qconfig)
          = Ret (5%positive, w') ∧
    (∀ x L, Demo.model_heap !! x = Some L →
            ¬ reach Demo.model_heap 5%positive x → layers w' !! x = Some L).
Proof.
  assert (∃ w', quantize 3 Demo.qat 5%positive true (Demo.world0 Demo.qconfig)
                  = Ret (5%positive, w')) as [w' Hrun]
    by (eexists; by vm_compute).
  exists w'. split; [exact Hrun|].
  exact (proj2 (inplace_changes_only_the_model 3 Demo.qat 5%positive
                  (Demo.world0 Demo.qconfig) 2 _ 5%positive w'
                  demo_collaborators_ok demo_features_tree Hrun)).
Defined.

Lemma quantize_keeps_objects_and_classes_witness :
  ∃ m' w',
    quantize 3 Demo.qat 1%positive false (Demo.world0 Demo.qconfig) = Ret (m', w') ∧
    ∀ x L, Demo.model_heap !! x = Some L →
      ∃ L', layers w' !! x = Some L' ∧ ltype L' = ltype L.
Proof.
  assert (∃ m' w', quantize 3 Demo.qat 1%positive false (Demo.world0 Demo.qconfig)
                     = Ret (m', w')) as (m' & w' & Hrun)
    by (eexists _, _; by vm_compute).
  exists m', w'. split; [exact Hrun|].
  exact (quantize_keeps_objects_and_classes 3 Demo.qat 1%positive false
           (Demo.world0 Demo.qconfig) 3 _ m' w'
           demo_collaborators_ok demo_model_tree Hrun).
Defined.

Lemma quantize_returns_a_tree_witness :
  ∃ m' w',
    quantize 3 Demo.qat 1%positive false (Demo.world0 Demo.qconfig) = Ret (m', w') ∧
    (∃ n' D', tree (layers w') n' m' D') ∧
    (∀ x, reach (layers w') m' x → x ∉ dom Demo.model_heap).
Proof.
  assert (∃ m' w', quantize 3 Demo.qat 1%positive false (Demo.world0 Demo.qconfig)
                     = Ret (m', w')) as (m' & w' & Hrun)
    by (eexists _, _; by vm_compute).
  exists m', w'. split; [exact Hrun|].
  destruct (quantize_returns_a_tree 3 Demo.qat 1%positive false
              (Demo.world0 Demo.qconfig) 3 _ m' w'
              demo_collaborators_ok demo_model_tree Hrun) as [Htree Hnew].
  split; [exact Htree | exact (Hnew eq_refl)].
Defined.

Lemma repeated_quantize_independent_witness :
  ∃ m1 w1 m2 w2,
    quantize 3 Demo.qat 1%positive false (Demo.world0 Demo.qconfig) = Ret (m1, w1) ∧
    quantize 3 Demo.qat 1%positive false w1 = Ret (m2, w2) ∧
    (∀ x L, Demo.model_heap !! x = Some L → layers w2 !! x = Some L) ∧
    (∀ x L, layers w1 !! x = Some L → layers w2 !! x = Some L) ∧
    (∀ x, reach (layers w2) m2 x →
          x ∉ dom Demo.model_heap ∧ ¬ reach (layers w1) m1 x).
Proof.
  assert (∃ m1 w1, quantize 3 Demo.qat 1%positive false (Demo.world0 Demo.qconfig)
                     = Ret (m1, w1) ∧
                   ∃ m2 w2, quantize 3 Demo.qat 1%positive false w1 = Ret (m2, w2))
    as (m1 & w1 & Hrun1 & m2 & w2 & Hrun2)
    by (eexists _, _; split; [by vm_compute | eexists _, _; by vm_compute]).
  exists m1, w1, m2, w2. split; [exact Hrun1|]. split; [exact Hrun2|].
  exact (repeated_quantize_independent 3 3 Demo.qat Demo.qat 1%positive
           (Demo.world0 Demo.qconfig) 3 _ m1 w1 m2 w2
           demo_collaborators_ok demo_model_tree Hrun1 Hrun2).
Defined.

Lemma two_rewriters_two_copies_witness :
  ∃ q1 w1 q2 w2,
    __init__ (E:=Demo.Exn) 1%positive (Demo.world0 Demo.qconfig) = Ret (q1, w1) ∧
    __init__ (E:=Demo.Exn) 1%positive w1 = Ret (q2, w2) ∧
    _config q1 ≠ _config q2 ∧
    configs w2 !! _config q1 = Some Demo.qconfig ∧
    configs w2 !! _config q2 = Some Demo.qconfig.
Proof.
  assert (∃ q1 w1, __init__ (E:=Demo.Exn) 1%positive (Demo.world0 Demo.qconfig)
                     = Ret (q1, w1) ∧
                   ∃ q2 w2, __init__ (E:=Demo.Exn) 1%positive w1 = Ret (q2, w2))
    as (q1 & w1 & Hinit1 & q2 & w2 & Hinit2)
    by (eexists _, _; split; [by vm_compute | eexists _, _; by vm_compute]).
  exists q1, w1, q2, w2. split; [exact Hinit1|]. split; [exact Hinit2|].
  destruct (two_rewriters_two_copies (DeepCopy0:=Demo.copy) 1%positive
              (Demo.world0 Demo.qconfig) q1 w1 q2 w2
              demo_copy_config_ok Hinit1 Hinit2)
    as (Hne & _ & _ & H1 & H2 & _).
  split_and!; [exact Hne | exact H1 | exact H2].
Defined.

